(** * scikit-metrics: the metric functions of [skmetrics] and their contract

    A shallow embedding of [skmetrics/classification.py] and
    [skmetrics/regression.py].

    Numbers.  A NumPy float64 is modelled as an extended rational: a finite
    value is an exact rational (every finite binary64 is one), and the three
    IEEE special values [+inf], [-inf] and [nan] are kept with the IEEE rules
    for them.  The sign of zero is not kept (a zero divisor counts as
    [+0.0], which is what [np.abs] and the counts of this package produce).
    The arrays are float64 arrays.

    The functions are embedded twice.  The first embedding computes with
    exact arithmetic.  It carries the statements that do not depend on how
    a finite value is rounded: shapes, errors and the order of the checks,
    which special value comes out, which entries are read, and the exact
    value that a float64 result approximates.  The second embedding, the
    module [Binary64], rounds every operation to binary64 as IEEE 754
    prescribes and adds up an array the way NumPy does; every statement
    about the float64 value of a result of [relative_mean_absolute_error]
    or [g_score] is made there.  The one irrational operation of the
    package, [x ** (1.0 / C)], lands in the extended reals in both: the
    program returns the float64 that [pow] rounds this real number to.

    Errors.  A Python call either returns a value or raises; [result] is the
    sum of the two, and the exceptions carry the message of the [raise] that
    produced them. *)

From Stdlib Require Import String.
From Stdlib Require Import List ZArith QArith Qcanon Qcabs Lia Bool.
From Stdlib Require Import Reals Lra Qreals Qpower Permutation.
From Stdlib Require Lqa.
Import ListNotations.

Set Implicit Arguments.

(* ================================================================= *)
(** ** Python exceptions and results *)

Inductive exn : Type :=
| ValueError (msg : string)
| IndexError (msg : string)
| TypeError (msg : string)
| ZeroDivisionError (msg : string).

Inductive result (A : Type) : Type :=
| Ok (a : A)
| Raise (e : exn).

Arguments Ok {A} a.
Arguments Raise {A} e.

Definition bind {A B : Type} (r : result A) (k : A -> result B) : result B :=
  match r with
  | Ok a => k a
  | Raise e => Raise e
  end.

Notation "x <- r ;; k" := (bind r (fun x => k))
  (at level 61, r at next level, right associativity).
Notation "' p <- r ;; k" := (bind r (fun p => k))
  (at level 61, p pattern, r at next level, right associativity).

Definition returns {A : Type} (r : result A) : Prop :=
  exists a, r = Ok a.

Definition raises {A : Type} (r : result A) : Prop :=
  exists e, r = Raise e.

(** The error kinds of the specification, and the kind each Python
    exception of this embedding falls under. *)
Inductive error_kind : Type :=
| ShapeError
| ConfigurationError
| DegenerateInputError
| OtherError.

Definition msg_eps_sparse : string := "Cannot set 'eps' when sparse=True".
Definition msg_same_size : string :=
  "labels_true and labels_pred must have same size".
Definition msg_broadcast : string :=
  "operands could not be broadcast together".
Definition msg_weights_length : string :=
  "Length of weights not compatible with specified axis.".
Definition msg_weights_zero : string :=
  "Weights sum to zero, can't be normalized".
Definition msg_float_division : string := "float division by zero".
Definition msg_index_axis1 : string := "index is out of bounds for axis 1".
Definition msg_index_axis0 : string := "index is out of bounds for axis 0".
Definition msg_onehot_negative : string :=
  "X needs to contain only non-negative integers.".

Definition kind_of (e : exn) : error_kind :=
  match e with
  | ValueError m =>
      if String.eqb m msg_eps_sparse then ConfigurationError
      else if String.eqb m msg_same_size then ShapeError
      else if String.eqb m msg_broadcast then ShapeError
      else if String.eqb m msg_weights_length then ShapeError
      else OtherError
  | IndexError _ => ShapeError
  | TypeError _ => OtherError
  | ZeroDivisionError _ => OtherError
  end.

(* ================================================================= *)
(** ** Floats as extended numbers *)

Inductive ext (A : Type) : Type :=
| Fin (a : A)
| PInf
| NInf
| NaN.

Arguments Fin {A} a.
Arguments PInf {A}.
Arguments NInf {A}.
Arguments NaN {A}.

(** float64 values of the arrays: extended rationals. *)
Definition float : Type := ext Qc.

(** float64 values after [**]: extended reals. *)
Definition rfloat : Type := ext R.

Definition is_finite {A : Type} (x : ext A) : bool :=
  match x with
  | Fin _ => true
  | _ => false
  end.

Definition is_nan {A : Type} (x : ext A) : bool :=
  match x with
  | NaN => true
  | _ => false
  end.

Open Scope Qc_scope.

Definition qz (n : Z) : Qc := Q2Qc (inject_Z n).
Definition qn (n : nat) : Qc := qz (Z.of_nat n).
Definition frac (a : Z) (b : positive) : Qc := Q2Qc (a # b).

Definition inf_of_sign (positive : bool) : float :=
  if positive then PInf else NInf.

Definition fneg (x : float) : float :=
  match x with
  | Fin a => Fin (- a)
  | PInf => NInf
  | NInf => PInf
  | NaN => NaN
  end.

Definition fadd (x y : float) : float :=
  match x, y with
  | NaN, _ | _, NaN => NaN
  | PInf, NInf | NInf, PInf => NaN
  | PInf, _ | _, PInf => PInf
  | NInf, _ | _, NInf => NInf
  | Fin a, Fin b => Fin (a + b)
  end.

Definition fsub (x y : float) : float := fadd x (fneg y).

(** [inf * 0] is [nan]; otherwise the sign of the product. *)
Definition fmul_inf (positive : bool) (y : float) : float :=
  match y with
  | NaN => NaN
  | PInf => inf_of_sign positive
  | NInf => inf_of_sign (negb positive)
  | Fin b =>
      match b ?= 0 with
      | Eq => NaN
      | Gt => inf_of_sign positive
      | Lt => inf_of_sign (negb positive)
      end
  end.

Definition fmul (x y : float) : float :=
  match x, y with
  | NaN, _ | _, NaN => NaN
  | Fin a, Fin b => Fin (a * b)
  | PInf, _ => fmul_inf true y
  | NInf, _ => fmul_inf false y
  | _, PInf => fmul_inf true x
  | _, NInf => fmul_inf false x
  end.

(** True division.  [a / 0] is [nan] for [a = 0] and an infinity of the sign
    of [a] otherwise; no exception is raised (NumPy warns and goes on). *)
Definition fdiv (x y : float) : float :=
  match x, y with
  | NaN, _ | _, NaN => NaN
  | Fin a, Fin b =>
      if Qc_eq_dec b 0 then
        match a ?= 0 with
        | Eq => NaN
        | Gt => PInf
        | Lt => NInf
        end
      else Fin (a / b)
  | Fin _, _ => Fin 0
  | PInf, Fin b => match b ?= 0 with Lt => NInf | _ => PInf end
  | NInf, Fin b => match b ?= 0 with Lt => PInf | _ => NInf end
  | _, _ => NaN
  end.

Definition fabs (x : float) : float :=
  match x with
  | Fin a => Fin (Qcabs a)
  | PInf | NInf => PInf
  | NaN => NaN
  end.

(** [x == 0.0] *)
Definition feq0 (x : float) : bool :=
  match x with
  | Fin a => if Qc_eq_dec a 0 then true else false
  | _ => false
  end.

Close Scope Qc_scope.

(* ================================================================= *)
(** ** NumPy on one-dimensional arrays *)

(** A 1-D float array. *)
Definition vector : Type := list float.

(** An elementwise binary operation on two 1-D arrays, with NumPy's
    broadcasting: equal lengths pair up, a length-1 array is stretched, and
    anything else raises. *)
Definition np_binop (f : float -> float -> float) (xs ys : vector)
  : result vector :=
  if Nat.eqb (length xs) (length ys) then
    Ok (map (fun p => f (fst p) (snd p)) (combine xs ys))
  else
    match xs, ys with
    | [x], _ => Ok (map (fun y => f x y) ys)
    | _, [y] => Ok (map (fun x => f x y) xs)
    | _, _ => Raise (ValueError msg_broadcast)
    end.

Definition np_abs (xs : vector) : vector := map fabs xs.

(** [a.sum()]: accumulation from [0.0]. *)
Definition np_sum (xs : vector) : float := fold_left fadd xs (Fin 0%Qc).

(** [np.prod(a)]: accumulation from [1.0]. *)
Definition np_prod (xs : vector) : float := fold_left fmul xs (Fin 1%Qc).

(** [a.mean()]: the sum over the count; the mean of an empty array is
    [0.0 / 0 = nan] (NumPy warns). *)
Definition np_mean (xs : vector) : float :=
  fdiv (np_sum xs) (Fin (qn (length xs))).

(** [np.average(a, weights=w, axis=0)] for a 1-D [a].  Without weights it is
    the mean.  With weights the lengths must agree, the weights must not sum
    to zero, and the result is [sum(a * w) / sum(w)]. *)
Definition np_average (a : vector) (weights : option vector) : result float :=
  match weights with
  | None => Ok (np_mean a)
  | Some wgt =>
      if negb (Nat.eqb (length a) (length wgt)) then
        Raise (ValueError msg_weights_length)
      else
        let scl := np_sum wgt in
        if feq0 scl then Raise (ZeroDivisionError msg_weights_zero)
        else
          Ok (fdiv (np_sum (map (fun p => fmul (fst p) (snd p))
                                (combine a wgt)))
                   scl)
  end.

(* ================================================================= *)
(** ** regression.py *)

(** [relative_mean_absolute_error(y_true, y_pred, sample_weight=None)]
<<
    diff = np.abs(y_pred - y_true) / np.abs(y_true)
    rmae = np.average(diff, weights=sample_weight, axis=0)
    return rmae
>> *)
Definition relative_mean_absolute_error_diff (y_true y_pred : vector)
  : result vector :=
  d <- np_binop fsub y_pred y_true ;;
  np_binop fdiv (np_abs d) (np_abs y_true).

Definition relative_mean_absolute_error
  (y_true y_pred : vector) (sample_weight : option vector) : result float :=
  diff <- relative_mean_absolute_error_diff y_true y_pred ;;
  rmae <- np_average diff sample_weight ;;
  Ok rmae.

(* ================================================================= *)
(** ** Labels, [np.unique] and the contingency matrix *)

(** Class labels are integers. *)
Definition label : Type := Z.

Fixpoint insert_label (x : label) (l : list label) : list label :=
  match l with
  | [] => [x]
  | y :: t =>
      match (x ?= y)%Z with
      | Lt => x :: l
      | Eq => l
      | Gt => y :: insert_label x t
      end
  end.

(** [np.unique(y)]: the distinct labels in increasing order. *)
Definition np_unique (y : list label) : list label :=
  fold_right insert_label [] y.

(** [sklearn.metrics.cluster.supervised.check_clusterings]: both label
    arrays are one-dimensional here, so only the size check is left. *)
Definition check_clusterings (labels_true labels_pred : list label)
  : result (list label * list label) :=
  if Nat.eqb (length labels_true) (length labels_pred)
  then Ok (labels_true, labels_pred)
  else Raise (ValueError msg_same_size).

(** A 2-D array given by its rows. *)
Definition matrix : Type := list vector.

(** Number of samples [k] with [labels_true[k] = a] and
    [labels_pred[k] = b]. *)
Definition count_pair (a b : label) (samples : list (label * label)) : nat :=
  length (filter (fun p => Z.eqb (fst p) a && Z.eqb (snd p) b) samples).

(** [contingency_matrix(labels_true, labels_pred, eps, sparse)]: row [i] is
    the [i]-th distinct true label, column [j] the [j]-th distinct predicted
    label, and the entry counts the samples carrying both.  [eps] with
    [sparse] raises; [eps] alone is added to every entry.  The sparse and
    the dense result hold the same numbers. *)
Definition contingency_matrix
  (labels_true labels_pred : list label) (eps : option float) (sparse : bool)
  : result matrix :=
  match eps, sparse with
  | Some _, true => Raise (ValueError msg_eps_sparse)
  | _, _ =>
      let classes := np_unique labels_true in
      let clusters := np_unique labels_pred in
      let samples := combine labels_true labels_pred in
      let counts :=
        map (fun a => map (fun b => Fin (qn (count_pair a b samples)))
                          clusters)
            classes in
      match eps with
      | None => Ok counts
      | Some e => Ok (map (map (fun x => fadd x e)) counts)
      end
  end.

(** [c.diagonal()]: the entries [c[i][i]] while both indices exist. *)
Fixpoint diagonal_from (i : nat) (c : matrix) : vector :=
  match c with
  | [] => []
  | row :: rest =>
      match nth_error row i with
      | Some x => x :: diagonal_from (S i) rest
      | None => []
      end
  end.

Definition diagonal (c : matrix) : vector := diagonal_from 0 c.

(** [c.sum(axis=1).ravel()] *)
Definition row_sums (c : matrix) : vector := map np_sum c.

(** [col.reshape([len(col), 1]) / row]: a column against a row broadcasts to
    the full table of quotients, one row of the result per entry of [col]. *)
Definition column_over_row (col row : vector) : matrix :=
  map (fun d => map (fun r => fdiv d r) row) col.

(** [np.prod] of a 2-D array multiplies all its entries. *)
Definition np_prod2 (m : matrix) : float := np_prod (concat m).

(** Python's [1.0 / n] for an [int] [n]. *)
Definition py_one_over (n : nat) : result Qc :=
  match n with
  | O => Raise (ZeroDivisionError msg_float_division)
  | S _ => Ok (Qcinv (qn n))
  end.

(** [x ** y] for an exponent [0 < y <= 1], the only exponents the package
    forms ([1.0 / C] for a positive count [C]): a root of a positive number,
    [0.0] for zero, and for a negative base the base itself under [y = 1]
    and [nan] under a fractional exponent. *)
Definition float_pow (x : float) (y : Qc) : rfloat :=
  match x with
  | NaN => NaN
  | PInf => PInf
  | NInf => if Qc_eq_dec y 1%Qc then NInf else PInf
  | Fin a =>
      match (a ?= 0)%Qc with
      | Gt => Fin (Rpower (Q2R a) (Q2R y))
      | Eq => Fin 0%R
      | Lt => if Qc_eq_dec y 1%Qc then Fin (Q2R a) else NaN
      end
  end.

(* ================================================================= *)
(** ** classification.py: g_score *)

(** [g_score(y_true, y_pred, eps=None, sparse=False)]
<<
    y_true, y_pred = check_clusterings(y_true, y_pred)
    c = contingency_matrix(y_true, y_pred, eps=eps, sparse=sparse)
    d = c.diagonal()
    true_rates = d.reshape([len(d), 1]) / c.sum(axis=1).ravel()
    g = np.prod(true_rates)**(1.0 / c.shape[0])
    return g
>> *)
Definition true_rates (c : matrix) : matrix :=
  column_over_row (diagonal c) (row_sums c).

Definition g_score
  (y_true y_pred : list label) (eps : option float) (sparse : bool)
  : result rfloat :=
  '(y_true, y_pred) <- check_clusterings y_true y_pred ;;
  c <- contingency_matrix y_true y_pred eps sparse ;;
  let p := np_prod2 (true_rates c) in
  e <- py_one_over (length c) ;;
  Ok (float_pow p e).

(** The score the documentation describes: the per-class true rate is the
    diagonal entry over the sum of its own row, and the score is the
    geometric mean of these rates. *)
Definition per_class_true_rates (c : matrix) : vector :=
  map (fun p => fdiv (fst p) (snd p)) (combine (diagonal c) (row_sums c)).

Definition geometric_mean_of_true_rates (c : matrix) : result rfloat :=
  e <- py_one_over (length c) ;;
  Ok (float_pow (np_prod (per_class_true_rates c)) e).

(* ================================================================= *)
(** ** classification.py: geometric_roc_auc_score *)

(** A 2-D score array: its column count and its rows.  The column count is
    kept apart so that an array without rows still has a shape. *)
Record array2 : Type := Array2 {
  ncols : nat;
  rows : list vector
}.

Definition well_shaped (a : array2) : Prop :=
  Forall (fun r => length r = ncols a) (rows a).

(** [a[:, i]] *)
Definition column (a : array2) (i : nat) : result vector :=
  if Nat.ltb i (ncols a)
  then Ok (map (fun r => nth i r NaN) (rows a))
  else Raise (IndexError msg_index_axis1).

(** [OneHotEncoder().fit_transform(y.reshape((len(y), 1))).todense()]: one
    indicator column per distinct label, in increasing label order.  The
    encoder of the scikit-learn release the package imports from refuses an
    empty array and negative labels. *)
Definition msg_min_samples : string :=
  "Found array with 0 sample(s) while a minimum of 1 is required.".

Definition indicator (c : label) (y : list label) : vector :=
  map (fun l => if Z.eqb l c then Fin 1%Qc else Fin 0%Qc) y.

Definition one_hot (y : list label) : result (list vector) :=
  match y with
  | [] => Raise (ValueError msg_min_samples)
  | _ =>
      if existsb (fun l => Z.ltb l 0) y
      then Raise (ValueError msg_onehot_negative)
      else Ok (map (fun c => indicator c y) (np_unique y))
  end.

(** The two scikit-learn capabilities the score is built on.  [roc_curve]
    takes the binary truth column, the score column, [pos_label],
    [sample_weight] and [drop_intermediate] and gives [(fpr, tpr,
    thresholds)]; [auc] takes [fpr], [tpr] and [reorder].  Either may raise. *)
Class RocBackend : Type := {
  roc_curve :
    vector -> vector -> option label -> option vector -> bool ->
    result (vector * vector * vector);
  auc : vector -> vector -> bool -> result float
}.

Section GeometricRocAuc.

Context {backend : RocBackend}.

(** The body of the loop for class [i], given its indicator column. *)
Definition class_auc
  (truth_i : vector) (y_score : array2) (i : nat)
  (pos_label : option label) (sample_weight : option vector)
  (drop_intermediate reorder : bool) : result float :=
  score_i <- column y_score i ;;
  '(fpr, tpr, _) <-
    roc_curve truth_i score_i pos_label sample_weight drop_intermediate ;;
  auc fpr tpr reorder.

(** [for i in range(n_classes): ... classes_auc.append(...)]; the columns
    of the one-hot matrix are walked together with their index. *)
Fixpoint classes_auc_from
  (i : nat) (truth : list vector) (y_score : array2)
  (pos_label : option label) (sample_weight : option vector)
  (drop_intermediate reorder : bool) : result vector :=
  match truth with
  | [] => Ok []
  | truth_i :: rest =>
      a <- class_auc truth_i y_score i pos_label sample_weight
             drop_intermediate reorder ;;
      l <- classes_auc_from (S i) rest y_score pos_label sample_weight
             drop_intermediate reorder ;;
      Ok (a :: l)
  end.

(** [geometric_roc_auc_score(y_true, y_score, pos_label=None,
    sample_weight=None, drop_intermediate=True, reorder=False)]
<<
  n_classes = len(np.unique(y_true))
  y_true = OneHotEncoder().fit_transform(
      y_true.reshape((len(y_true), 1))).todense()
  classes_auc = []
  for i in range(n_classes):
      fpr, tpr, _ = roc_curve(y_true[:, i], y_score[:, i],
                              pos_label=pos_label,
                              sample_weight=sample_weight,
                              drop_intermediate=drop_intermediate)
      classes_auc.append(auc(fpr, tpr, reorder=reorder))
  gaur = np.prod(np.asarray(classes_auc))**(1./n_classes)
  return gaur
>> *)
Definition classes_auc
  (y_true : list label) (y_score : array2)
  (pos_label : option label) (sample_weight : option vector)
  (drop_intermediate reorder : bool) : result vector :=
  truth <- one_hot y_true ;;
  classes_auc_from 0 truth y_score pos_label sample_weight
    drop_intermediate reorder.

Definition geometric_roc_auc_score
  (y_true : list label) (y_score : array2)
  (pos_label : option label) (sample_weight : option vector)
  (drop_intermediate reorder : bool) : result rfloat :=
  let n_classes := length (np_unique y_true) in
  aucs <- classes_auc y_true y_score pos_label sample_weight
            drop_intermediate reorder ;;
  e <- py_one_over n_classes ;;
  Ok (float_pow (np_prod aucs) e).

End GeometricRocAuc.

(* ================================================================= *)
(** ** classification.py: separability_score *)

(** The projections [y_pred]: a 1-D array of values or a 2-D array with one
    row per sample. *)
Inductive projections : Type :=
| Arr1 (v : vector)
| Arr2 (a : array2).

(** What [np.cov] and the arithmetic after it produce: a number (a 0-d
    array or a NumPy scalar) or a square 2-D array. *)
Inductive ndarray : Type :=
| Scalar (x : float)
| Matrix (m : matrix).

(** [np.where(y == c)[0]] *)
Fixpoint where_eq_from (i : nat) (y : list label) (c : label) : list nat :=
  match y with
  | [] => []
  | l :: t =>
      if Z.eqb l c then i :: where_eq_from (S i) t c
      else where_eq_from (S i) t c
  end.

Definition np_where_eq (y : list label) (c : label) : list nat :=
  where_eq_from 0 y c.

(** [a[idx]] for a list of indices along the first axis; an index past the
    end raises. *)
Fixpoint take {A : Type} (l : list A) (idx : list nat) : result (list A) :=
  match idx with
  | [] => Ok []
  | i :: rest =>
      match nth_error l i with
      | None => Raise (IndexError msg_index_axis0)
      | Some x => t <- take l rest ;; Ok (x :: t)
      end
  end.

Definition take_samples (y_pred : projections) (idx : list nat)
  : result projections :=
  match y_pred with
  | Arr1 v => v' <- take v idx ;; Ok (Arr1 v')
  | Arr2 a => r <- take (rows a) idx ;; Ok (Arr2 (Array2 (ncols a) r))
  end.

(** The variables-by-observations table [X] that [np.cov(m, rowvar=0)]
    works on.  A 1-D [m] is one variable.  A 2-D [m] is transposed, so that
    its columns become the variables, unless it has exactly one row: NumPy
    leaves a single row as it is, and it is then one variable observed once
    per column. *)
Definition cov_variables (m : projections) : list vector :=
  match m with
  | Arr1 v => [v]
  | Arr2 a =>
      match rows a with
      | [r] => [r]
      | _ => map (fun j => map (fun r => nth j r NaN) (rows a))
                 (seq 0 (ncols a))
      end
  end.

(** Number of observations, [X.shape[1]]. *)
Definition cov_observations (m : projections) : nat :=
  match m with
  | Arr1 v => length v
  | Arr2 a =>
      match rows a with
      | [r] => length r
      | _ => length (rows a)
      end
  end.

Definition dot (u v : vector) : float :=
  np_sum (map (fun p => fmul (fst p) (snd p)) (combine u v)).

Definition center (x : vector) : vector :=
  let avg := np_mean x in map (fun e => fsub e avg) x.

(** [c.squeeze()]: a 1x1 result is a 0-d array. *)
Definition squeeze (c : matrix) : ndarray :=
  match c with
  | [[x]] => Scalar x
  | _ => Matrix c
  end.

(** [np.cov(m, rowvar=0)]
<<
    X = array(m, ndmin=2, dtype=dtype)
    if not rowvar and X.shape[0] != 1:
        X = X.T
    if X.shape[0] == 0:
        return np.array([]).reshape(0, 0)
    avg, w_sum = average(X, axis=1, weights=None, returned=True)
    fact = X.shape[1] - ddof                      # ddof = 1
    if fact <= 0:
        warnings.warn("Degrees of freedom <= 0 for slice", RuntimeWarning)
        fact = 0.0
    X -= avg[:, None]
    c = dot(X, X.T.conj())
    c *= 1. / np.float64(fact)
    return c.squeeze()
>> *)
Definition np_cov (m : projections) : ndarray :=
  let X := map center (cov_variables m) in
  let fact := Nat.pred (cov_observations m) in
  let scale := fdiv (Fin 1%Qc) (Fin (qn fact)) in
  squeeze (map (fun u => map (fun v => fmul (dot u v) scale) X) X).

(** Elementwise arithmetic on results, a number broadcasting over an
    array.  Two arrays met here always have the same shape (both are
    features x features). *)
Definition nd_binop (f : float -> float -> float) (a b : ndarray) : ndarray :=
  match a, b with
  | Scalar x, Scalar y => Scalar (f x y)
  | Scalar x, Matrix m => Matrix (map (map (fun y => f x y)) m)
  | Matrix m, Scalar y => Matrix (map (map (fun x => f x y)) m)
  | Matrix m, Matrix n =>
      Matrix (map (fun rs => map (fun p => f (fst p) (snd p))
                                 (combine (fst rs) (snd rs)))
                  (combine m n))
  end.

(** [np.mean(sc, axis=0)] for a list of covariance results: their sum over
    their count.  (When one class has a single sample and there are several
    features the list mixes numbers and arrays; what NumPy makes of such a
    ragged list varies with its release, and here the numbers broadcast.
    No property below rests on that case.) *)
Definition np_mean_axis0 (sc : list ndarray) : ndarray :=
  nd_binop fdiv (fold_left (nd_binop fadd) sc (Scalar (Fin 0%Qc)))
           (Scalar (Fin (qn (length sc)))).

(** [_scatter_matrices(y_true, y_pred)]
<<
    sc = [np.cov(m=y_pred[np.where(y_true.T == c)[0]], rowvar=0)
          for c in np.unique(y_true.T)]
    sw = np.mean(sc, axis=0)
    st = np.cov(m=y_pred, rowvar=0)
    return sw, st
>> *)
Fixpoint class_covariances
  (y_true : list label) (y_pred : projections) (classes : list label)
  : result (list ndarray) :=
  match classes with
  | [] => Ok []
  | c :: rest =>
      part <- take_samples y_pred (np_where_eq y_true c) ;;
      sc <- class_covariances y_true y_pred rest ;;
      Ok (np_cov part :: sc)
  end.

Definition _scatter_matrices (y_true : list label) (y_pred : projections)
  : result (ndarray * ndarray) :=
  sc <- class_covariances y_true y_pred (np_unique y_true) ;;
  let sw := np_mean_axis0 sc in
  let st := np_cov y_pred in
  Ok (sw, st).

(** [np.trace] *)
Definition np_trace (m : matrix) : float := np_sum (diagonal m).

(** [separability_score(y_true, y_pred)]
<<
    sw, st = _scatter_matrices(y_true=y_true, y_pred=y_pred)
    s = st / sw
    if not np.isscalar(s):
        s = np.trace(s)
    return s
>> *)
Definition separability_score (y_true : list label) (y_pred : projections)
  : result float :=
  '(sw, st) <- _scatter_matrices y_true y_pred ;;
  let s := nd_binop fdiv st sw in
  match s with
  | Scalar x => Ok x
  | Matrix m => Ok (np_trace m)
  end.

(* ================================================================= *)
(** ** The scikit-learn capabilities: roc_curve and auc

    A model of [sklearn.metrics.roc_curve] and [sklearn.metrics.auc] as the
    package calls them, on the extended rationals.  It is the instance at
    which the statements about [geometric_roc_auc_score] are exercised; the
    statements themselves hold for every backend. *)

Definition msg_inconsistent : string :=
  "Found input variables with inconsistent numbers of samples".
Definition msg_not_finite : string :=
  "Input contains NaN, infinity or a value too large for dtype('float64').".
Definition msg_not_binary : string :=
  "Data is not binary and pos_label is not specified".
Definition msg_auc_points : string :=
  "At least 2 points are needed to compute area under curve".
Definition msg_auc_order : string :=
  "Reordering is not possible when using 'x' with a non-sorted order".

(** [assert_all_finite]: the finite values of an array, or an error. *)
Fixpoint finite_values (xs : vector) : result (list Qc) :=
  match xs with
  | [] => Ok []
  | Fin a :: t => l <- finite_values t ;; Ok (a :: l)
  | _ :: _ => Raise (ValueError msg_not_finite)
  end.

Definition qc_in (a : Qc) (l : list Qc) : bool :=
  existsb (fun b => Qc_eq_bool a b) l.

(** [np.unique(y_true)] is one of [0, 1], [-1, 1], [0], [-1], [1]. *)
Definition binary_labels (y : list Qc) : bool :=
  let has := fun a => qc_in a y in
  let only := fun l => forallb (fun a => qc_in a l) y in
  negb (Nat.eqb (length y) 0)
  && (only [qz 0; qz 1] || (only [qz (-1); qz 1] && has (qz (-1)))).

(** One sample of the curve computation: score, truth, weight. *)
Record sample : Type := Sample {
  score : Qc;
  is_positive : bool;
  weight : Qc
}.

(** Insertion before the first sample whose score is not larger: scores end
    up in decreasing order, a later sample before an earlier one of the
    same score, as [np.argsort(y_score, kind="mergesort")[::-1]] has it. *)
Fixpoint insert_sample (s : sample) (l : list sample) : list sample :=
  match l with
  | [] => [s]
  | h :: t =>
      match (score h ?= score s)%Qc with
      | Gt => h :: insert_sample s t
      | _ => s :: l
      end
  end.

Definition sort_desc (l : list sample) : list sample :=
  fold_left (fun acc s => insert_sample s acc) l [].

(** Cumulative true-positive and false-positive weight at the last sample
    of every run of equal scores:
    [stable_cumsum(...)[threshold_idxs]]. *)
Fixpoint curve_points (l : list sample) (tps fps : Qc)
  : list (Qc * Qc * Qc) :=
  match l with
  | [] => []
  | s :: t =>
      let tps' := if is_positive s then (tps + weight s)%Qc else tps in
      let fps' := if is_positive s then fps else (fps + weight s)%Qc in
      match t with
      | [] => [(fps', tps', score s)]
      | s' :: _ =>
          if Qc_eq_bool (score s) (score s')
          then curve_points t tps' fps'
          else (fps', tps', score s) :: curve_points t tps' fps'
      end
  end.

(** [_binary_clf_curve(y_true, y_score, pos_label, sample_weight)] *)
Definition _binary_clf_curve
  (y_true y_score : vector) (pos_label : option label)
  (sample_weight : option vector) : result (list (Qc * Qc * Qc)) :=
  if negb (Nat.eqb (length y_true) (length y_score)) then
    Raise (ValueError msg_inconsistent)
  else
    truth <- finite_values y_true ;;
    scores <- finite_values y_score ;;
    weights <-
      match sample_weight with
      | None => Ok (map (fun _ => 1%Qc) scores)
      | Some w =>
          if negb (Nat.eqb (length w) (length y_score))
          then Raise (ValueError msg_inconsistent)
          else finite_values w
      end ;;
    pos <-
      match pos_label with
      | Some p => Ok (qz p)
      | None =>
          if binary_labels truth then Ok (qz 1)
          else Raise (ValueError msg_not_binary)
      end ;;
    let samples :=
      map (fun p => Sample (snd (fst p)) (Qc_eq_bool (fst (fst p)) pos)
                           (snd p))
          (combine (combine truth scores) weights) in
    match samples with
    | [] => Raise (IndexError msg_index_axis0)
    | _ => Ok (curve_points (sort_desc samples) 0%Qc 0%Qc)
    end.

(** [np.diff(a, 2)] is non-zero at the middle of three points. *)
Definition bends (p q r : Qc * Qc * Qc) : bool :=
  let second := fun a b c : Qc => (c - b - (b - a))%Qc in
  negb (Qc_eq_bool (second (fst (fst p)) (fst (fst q)) (fst (fst r))) 0%Qc)
  || negb (Qc_eq_bool (second (snd (fst p)) (snd (fst q)) (snd (fst r)))
                      0%Qc).

(** The points kept after the first one by [drop_intermediate]: the ends
    and every point where the curve bends. *)
Fixpoint keep_bends (prev : Qc * Qc * Qc) (l : list (Qc * Qc * Qc))
  : list (Qc * Qc * Qc) :=
  match l with
  | [] => []
  | [q] => [q]
  | q :: ((r :: _) as t) =>
      if bends prev q r then q :: keep_bends q t else keep_bends q t
  end.

Definition drop_points (drop_intermediate : bool) (l : list (Qc * Qc * Qc))
  : list (Qc * Qc * Qc) :=
  if drop_intermediate && Nat.ltb 2 (length l) then
    match l with
    | [] => []
    | p :: t => p :: keep_bends p t
    end
  else l.

(** [a / a[-1]], or an array of nan when the last entry is not positive. *)
Definition normalise (a : list Qc) : vector :=
  match (last a 0%Qc ?= 0)%Qc with
  | Gt => map (fun x => Fin (x / last a 0%Qc)%Qc) a
  | _ => map (fun _ => NaN) a
  end.

(** [roc_curve(y_true, y_score, pos_label, sample_weight,
    drop_intermediate)] *)
Definition sk_roc_curve
  (y_true y_score : vector) (pos_label : option label)
  (sample_weight : option vector) (drop_intermediate : bool)
  : result (vector * vector * vector) :=
  pts <- _binary_clf_curve y_true y_score pos_label sample_weight ;;
  let pts := drop_points drop_intermediate pts in
  let pts :=
    match pts with
    | [] => [(0%Qc, 0%Qc, 1%Qc)]
    | (f0, t0, th0) :: _ =>
        if Qc_eq_bool f0 0%Qc then pts
        else (0%Qc, 0%Qc, (th0 + 1)%Qc) :: pts
    end in
  let fps := map (fun p => fst (fst p)) pts in
  let tps := map (fun p => snd (fst p)) pts in
  Ok (normalise fps, normalise tps, map (fun p => Fin (snd p)) pts).

(** [x < 0] and [x <= 0] on floats; a comparison with nan is false. *)
Definition flt0 (x : float) : bool :=
  match x with
  | Fin a => match (a ?= 0)%Qc with Lt => true | _ => false end
  | NInf => true
  | _ => false
  end.

Definition fle0 (x : float) : bool :=
  match x with
  | Fin a => match (a ?= 0)%Qc with Gt => false | _ => true end
  | NInf => true
  | _ => false
  end.

(** [np.diff] *)
Fixpoint np_diff (x : vector) : vector :=
  match x with
  | a :: ((b :: _) as t) => fsub b a :: np_diff t
  | _ => []
  end.

(** [np.trapz(y, x)] *)
Fixpoint np_trapz (y x : vector) : float :=
  match y, x with
  | y0 :: ((y1 :: _) as ty), x0 :: ((x1 :: _) as tx) =>
      fadd (fdiv (fmul (fsub x1 x0) (fadd y1 y0)) (Fin (qz 2)))
           (np_trapz ty tx)
  | _, _ => Fin 0%Qc
  end.

(** [np.lexsort((y, x))]: by [x], ties by [y]. *)
Definition float_cmp (a b : float) : comparison :=
  match a, b with
  | Fin p, Fin q => (p ?= q)%Qc
  | NaN, NaN => Eq
  | NaN, _ => Gt
  | _, NaN => Lt
  | PInf, PInf | NInf, NInf => Eq
  | PInf, _ | _, NInf => Gt
  | _, _ => Lt
  end.

Fixpoint insert_point (p : float * float) (l : list (float * float))
  : list (float * float) :=
  match l with
  | [] => [p]
  | h :: t =>
      match float_cmp (fst h) (fst p) with
      | Lt => h :: insert_point p t
      | Gt => p :: l
      | Eq =>
          match float_cmp (snd h) (snd p) with
          | Gt => p :: l
          | _ => h :: insert_point p t
          end
      end
  end.

Definition lexsort_points (l : list (float * float)) : list (float * float) :=
  fold_left (fun acc p => insert_point p acc) l [].

(** [auc(x, y, reorder)] *)
Definition sk_auc (x y : vector) (reorder : bool) : result float :=
  if negb (Nat.eqb (length x) (length y)) then
    Raise (ValueError msg_inconsistent)
  else if Nat.ltb (length x) 2 then
    Raise (ValueError msg_auc_points)
  else if reorder then
    let pts := lexsort_points (combine x y) in
    Ok (np_trapz (map snd pts) (map fst pts))
  else
    let dx := np_diff x in
    if existsb flt0 dx then
      if forallb fle0 dx then Ok (fneg (np_trapz y x))
      else Raise (ValueError msg_auc_order)
    else Ok (np_trapz y x).

#[export] Instance sklearn_backend : RocBackend := {
  roc_curve := sk_roc_curve;
  auc := sk_auc
}.

(* ================================================================= *)
(** ** The quantities the contract is stated in *)

(** [|y_pred - y_true| / |y_true|] for one sample. *)
Definition relative_deviation (t p : float) : float :=
  fdiv (fabs (fsub p t)) (fabs t).

(** A finite, non-zero float. *)
Definition nonzero_number (x : float) : Prop :=
  exists q : Qc, x = Fin q /\ q <> 0%Qc.

(** A finite float. *)
Definition number (x : float) : Prop := is_finite x = true.

(** Number of samples of a class. *)
Definition class_size (c : label) (y : list label) : nat :=
  length (filter (fun l => Z.eqb l c) y).

(** Product of a list of rationals, and a rational to a natural power. *)
Definition qprod (l : list Qc) : Qc := fold_right Qcmult 1%Qc l.

Fixpoint qpow (q : Qc) (n : nat) : Qc :=
  match n with
  | O => 1%Qc
  | S k => (q * qpow q k)%Qc
  end.

(** Decidable equality of floats, for closed computations. *)
Definition float_eqb (x y : float) : bool :=
  match x, y with
  | Fin a, Fin b => Qc_eq_bool a b
  | PInf, PInf | NInf, NInf | NaN, NaN => true
  | _, _ => false
  end.

Fixpoint list_eqb {A : Type} (eqb : A -> A -> bool) (u v : list A) : bool :=
  match u, v with
  | [], [] => true
  | x :: u', y :: v' => eqb x y && list_eqb eqb u' v'
  | _, _ => false
  end.

Definition vector_eqb : vector -> vector -> bool := list_eqb float_eqb.
Definition matrix_eqb : matrix -> matrix -> bool := list_eqb vector_eqb.

(** The first [k] columns of a 2-D array. *)
Definition first_columns (k : nat) (a : array2) : array2 :=
  Array2 (Nat.min k (ncols a)) (map (firstn k) (rows a)).

(** Number of samples of the projections, and their shape. *)
Definition n_samples (y_pred : projections) : nat :=
  match y_pred with
  | Arr1 v => length v
  | Arr2 a => length (rows a)
  end.

Definition single_feature (y_pred : projections) : Prop :=
  match y_pred with
  | Arr1 _ => True
  | Arr2 a => ncols a = 1%nat
  end.

Definition several_features (y_pred : projections) : Prop :=
  match y_pred with
  | Arr1 _ => False
  | Arr2 a => (2 <= ncols a)%nat
  end.

Definition rectangular (y_pred : projections) : Prop :=
  match y_pred with
  | Arr1 _ => True
  | Arr2 a => well_shaped a
  end.

Definition is_scalar (a : ndarray) : Prop :=
  match a with
  | Scalar _ => True
  | Matrix _ => False
  end.

Definition is_matrix (a : ndarray) : Prop :=
  match a with
  | Scalar _ => False
  | Matrix _ => True
  end.

(** Total scatter over within-class scatter as the specification words it:
    the ratio of two numbers, and for arrays the sum over the diagonal of
    the entry-by-entry quotients (a number broadcasting). *)
Definition ratio_or_trace (st sw : ndarray) : float :=
  match st, sw with
  | Scalar t, Scalar w => fdiv t w
  | Matrix T, Matrix W =>
      np_sum (map (fun p => fdiv (fst p) (snd p))
                  (combine (diagonal T) (diagonal W)))
  | Matrix T, Scalar w => np_sum (map (fun t => fdiv t w) (diagonal T))
  | Scalar t, Matrix W => np_sum (map (fun w => fdiv t w) (diagonal W))
  end.

(** Two projection arrays of the same dimensionality and column count. *)
Definition same_shape (y_pred part : projections) : Prop :=
  match y_pred, part with
  | Arr1 _, Arr1 _ => True
  | Arr2 a, Arr2 b => ncols a = ncols b
  | _, _ => False
  end.

(** A strictly increasing list of labels. *)
Inductive increasing : list label -> Prop :=
| increasing_nil : increasing []
| increasing_cons (x : label) (l : list label) :
    (forall z, In z l -> (x < z)%Z) -> increasing l -> increasing (x :: l).


Definition unit_number (x : float) : Prop :=
  exists q : Qc, x = Fin q /\ (0 <= q)%Qc /\ (q <= 1)%Qc.

(** A relabelling that keeps the order of the labels. *)
Definition order_preserving (f : label -> label) : Prop :=
  forall a b : label, (a < b)%Z -> (f a < f b)%Z.








(* ================================================================= *)
(** ** Rounding to binary64

    The functions above compute with exact rationals; they give the value
    a float64 computation approximates, and every statement about them that
    involves the value of a finite result is a statement about that exact
    value.  What follows rounds: [round64] sends a rational to the nearest
    binary64 number, ties to even (53 significant bits, exponents down to
    the subnormal [2^-1074], overflow to an infinity from [2^1024 - 2^970]
    on), and the four operations round their exact result, as IEEE 754
    prescribes.  The sign of zero is not kept. *)

(** [floor (log2 q)] for a positive rational: the difference of the bit
    lengths of numerator and denominator, or one less. *)
Definition ilog2 (q : Q) : Z :=
  let e0 := (Z.log2 (Qnum q) - Z.log2 (QDen q))%Z in
  if Qle_bool (2 ^ e0) q then e0 else (e0 - 1)%Z.

(** The integer nearest to a rational, ties to even. *)
Definition nearest_even (x : Q) : Z :=
  let q := (Qnum x / QDen x)%Z in
  match (2 * (Qnum x mod QDen x) ?= QDen x)%Z with
  | Lt => q
  | Gt => (q + 1)%Z
  | Eq => if Z.even q then q else (q + 1)%Z
  end.

(** The exponent of the last place of the binary64 numbers around [q]: 52
    below the exponent of [q], and [-1074] for subnormal numbers. *)
Definition last_place (q : Q) : Z := Z.max (ilog2 q - 52) (-1074).

(** [q] in units of its last place, rounded. *)
Definition significand (q : Q) : Z := nearest_even (q / 2 ^ last_place q).

Definition round_pos (q : Q) : float :=
  let v := (inject_Z (significand q) * 2 ^ last_place q)%Q in
  if Qle_bool (2 ^ 1024) v then PInf else Fin (Q2Qc v).

Definition round64 (q : Qc) : float :=
  match Qnum (this q) with
  | Z0 => Fin 0%Qc
  | Zpos _ => round_pos (this q)
  | Zneg _ => fneg (round_pos (- this q))
  end.

(** [2^e] *)
Definition pow2 (e : Z) : Qc := Q2Qc (2 ^ e).

(** The float64 nearest to a value; infinities and nan stay. *)
Definition rnd (x : float) : float :=
  match x with
  | Fin q => round64 q
  | _ => x
  end.

Definition add64 (x y : float) : float := rnd (fadd x y).
Definition sub64 (x y : float) : float := rnd (fsub x y).
Definition mul64 (x y : float) : float := rnd (fmul x y).
Definition div64 (x y : float) : float := rnd (fdiv x y).

(** The functions of [regression.py] and [g_score] once more, computing in
    float64.  An integer count enters a float operation as the float of the
    same value: a count is below [2^53] in any array that fits a memory. *)
Module Binary64.

(** [r[j] += a[i + j]] for the eight accumulators of a block. *)
Fixpoint add_lanes (r c : vector) : vector :=
  match r, c with
  | x :: r', y :: c' => add64 x y :: add_lanes r' c'
  | _, _ => r
  end.

(** [for (i = 8; i < n - (n % 8); i += 8)]: [k] more blocks of eight. *)
Fixpoint unrolled (k : nat) (r a : vector) : vector * vector :=
  match k with
  | O => (r, a)
  | S k' => unrolled k' (add_lanes r (firstn 8 a)) (skipn 8 a)
  end.

(** NumPy's sum of 8 to 128 floats: eight accumulators over the blocks of
    eight, added up as [((r0 + r1) + (r2 + r3)) + ((r4 + r5) + (r6 + r7))],
    then the remaining entries one by one. *)
Definition block_sum (a : vector) : float :=
  let '(r, rest) := unrolled (length a / 8 - 1) (firstn 8 a) (skipn 8 a) in
  let pair := fun i j => add64 (nth i r NaN) (nth j r NaN) in
  fold_left add64 rest
    (add64 (add64 (pair 0 1) (pair 2 3)) (add64 (pair 4 5) (pair 6 7)))%nat.

(** [pairwise_sum] of [numpy/core/src/umath/loops.c.src]:
<<
    if (n < 8) { res = 0.; for (i = 0; i < n; i++) res += a[i]; }
    else if (n <= PW_BLOCKSIZE) { ... eight accumulators ... }
    else { n2 = n / 2; n2 -= n2 % 8;
           return pairwise_sum(a, n2) + pairwise_sum(a + n2, n - n2); }
>>
    The recursion halves the array; [fuel] bounds its depth. *)
Fixpoint pairwise_sum (fuel : nat) (a : vector) : float :=
  let n := length a in
  if (n <? 8)%nat then fold_left add64 a (Fin 0%Qc)
  else if (n <=? 128)%nat then block_sum a
  else
    match fuel with
    | O => block_sum a
    | S fuel' =>
        let n2 := (n / 2 - (n / 2) mod 8)%nat in
        add64 (pairwise_sum fuel' (firstn n2 a))
              (pairwise_sum fuel' (skipn n2 a))
    end.

(** [a.sum()] of a float64 array: [0.0 + pairwise_sum(a)]. *)
Definition np_sum (a : vector) : float :=
  add64 (Fin 0%Qc) (pairwise_sum (length a) a).

(** [np.prod(a)]: the running product from [1.0], in the order of the
    memory. *)
Definition np_prod (a : vector) : float := fold_left mul64 a (Fin 1%Qc).

(** [a.mean()] *)
Definition np_mean (a : vector) : float :=
  div64 (np_sum a) (Fin (qn (length a))).

(** [np.average(a, weights=w, axis=0)] *)
Definition np_average (a : vector) (weights : option vector) : result float :=
  match weights with
  | None => Ok (np_mean a)
  | Some wgt =>
      if negb (Nat.eqb (length a) (length wgt)) then
        Raise (ValueError msg_weights_length)
      else
        let scl := np_sum wgt in
        if feq0 scl then Raise (ZeroDivisionError msg_weights_zero)
        else
          Ok (div64 (np_sum (map (fun p => mul64 (fst p) (snd p))
                                 (combine a wgt)))
                    scl)
  end.

(** [relative_mean_absolute_error] on float64 arrays. *)
Definition relative_mean_absolute_error_diff (y_true y_pred : vector)
  : result vector :=
  d <- np_binop sub64 y_pred y_true ;;
  np_binop div64 (np_abs d) (np_abs y_true).

Definition relative_mean_absolute_error
  (y_true y_pred : vector) (sample_weight : option vector) : result float :=
  diff <- relative_mean_absolute_error_diff y_true y_pred ;;
  rmae <- np_average diff sample_weight ;;
  Ok rmae.

(** [|y_pred - y_true| / |y_true|] for one sample. *)
Definition relative_deviation (t p : float) : float :=
  div64 (fabs (sub64 p t)) (fabs t).

(** The contingency matrix holds integer counts; [eps] is added to them in
    float64. *)
Definition contingency_matrix
  (labels_true labels_pred : list label) (eps : option float) (sparse : bool)
  : result matrix :=
  match eps, sparse with
  | Some _, true => Raise (ValueError msg_eps_sparse)
  | None, _ => contingency_matrix labels_true labels_pred None sparse
  | Some e, false =>
      c <- contingency_matrix labels_true labels_pred None false ;;
      Ok (map (map (fun x => add64 x e)) c)
  end.

(** [c.sum(axis=1).ravel()]: integer sums for the integer matrix, float64
    sums after [eps] was added. *)
Definition row_sums (eps : option float) (c : matrix) : vector :=
  match eps with
  | None => row_sums c
  | Some _ => map np_sum c
  end.

Definition column_over_row (col row : vector) : matrix :=
  map (fun d => map (fun r => div64 d r) row) col.

Definition np_prod2 (m : matrix) : float := np_prod (concat m).

(** Python's [1.0 / n] *)
Definition py_one_over (n : nat) : result float :=
  match n with
  | O => Raise (ZeroDivisionError msg_float_division)
  | S _ => Ok (div64 (Fin 1%Qc) (Fin (qn n)))
  end.

(** [x ** y] for the float64 exponent [y = 1.0 / C]: the power in the
    reals, of which the program returns the float64 that [pow] rounds it
    to. *)
Definition float_pow (x y : float) : rfloat :=
  match y with
  | Fin q => float_pow x q
  | _ => NaN
  end.

Definition true_rates (eps : option float) (c : matrix) : matrix :=
  column_over_row (diagonal c) (row_sums eps c).

Definition g_score
  (y_true y_pred : list label) (eps : option float) (sparse : bool)
  : result rfloat :=
  '(y_true, y_pred) <- check_clusterings y_true y_pred ;;
  c <- contingency_matrix y_true y_pred eps sparse ;;
  let p := np_prod2 (true_rates eps c) in
  e <- py_one_over (length c) ;;
  Ok (float_pow p e).

(** The score of the documentation in float64: the geometric mean of the
    per-class true rates. *)
Definition per_class_true_rates (eps : option float) (c : matrix) : vector :=
  map (fun p => div64 (fst p) (snd p))
      (combine (diagonal c) (row_sums eps c)).

Definition geometric_mean_of_true_rates (eps : option float) (c : matrix)
  : result rfloat :=
  e <- py_one_over (length c) ;;
  Ok (float_pow (np_prod (per_class_true_rates eps c)) e).

End Binary64.


(** A float that is a number and is not negative, or [+inf]. *)
Definition nonneg_or_inf (x : float) : Prop :=
  x = PInf \/ exists q : Qc, x = Fin q /\ (0 <= q)%Qc.

(** What adding up the entries of an array can give in float64: the
    entries may be taken in any order and grouping, each addition rounds.
    NumPy's sum is one such way of adding. *)
Inductive sums_to : vector -> float -> Prop :=
| sums_nil : sums_to [] (Fin 0%Qc)
| sums_one (x : float) : sums_to [x] x
| sums_add (l1 l2 : vector) (v1 v2 : float) :
    sums_to l1 v1 -> sums_to l2 v2 -> sums_to (l1 ++ l2) (add64 v1 v2)
| sums_perm (l l' : vector) (v : float) :
    Permutation l l' -> sums_to l v -> sums_to l' v.

(** The entries a lane has taken in, next to [Binary64.add_lanes]. *)
Fixpoint snoc_lanes (ls : list vector) (c : vector) : list vector :=
  match ls, c with
  | l :: ls', y :: c' => (l ++ [y]) :: snoc_lanes ls' c'
  | _, _ => ls
  end.

(* ================================================================= *)
(** * Properties *)

(** ** Arithmetic of the extended rationals *)

Lemma qn_0 : qn 0 = 0%Qc.
Proof. apply Qc_is_canon. reflexivity. Qed.

Lemma qn_S (n : nat) : qn (S n) = (qn n + 1)%Qc.
Proof.
  apply Qc_is_canon. unfold qn, qz.
  rewrite Nat2Z.inj_succ. unfold Z.succ.
  unfold Qcplus, Q2Qc. cbn [this].
  rewrite !Qred_correct. rewrite inject_Z_plus. reflexivity.
Qed.

Lemma qn_nonneg (n : nat) : (0 <= qn n)%Qc.
Proof.
  unfold Qcle, qn, qz, Q2Qc. cbn [this]. rewrite !Qred_correct.
  unfold Qle. simpl. lia.
Qed.

Lemma qn_pos (n : nat) : (0 < n)%nat -> (0 < qn n)%Qc.
Proof.
  intros H. unfold Qclt, qn, qz, Q2Qc. cbn [this]. rewrite !Qred_correct.
  unfold Qlt. simpl. lia.
Qed.

Lemma Qc_pos_compare (q : Qc) : (0 < q)%Qc -> (q ?= 0)%Qc = Gt.
Proof. intros H. now apply Qcgt_alt. Qed.

Lemma Qc_pos_neq (q : Qc) : (0 < q)%Qc -> q <> 0%Qc.
Proof. intros H E. rewrite E in H. exact (Qlt_irrefl _ H). Qed.

Lemma Qcabs_0 : Qcabs 0 = 0%Qc.
Proof. apply Qcabs_pos. apply Qcle_refl. Qed.

Lemma fadd_not_finite_l (x y : float) :
  is_finite x = false -> is_finite (fadd x y) = false.
Proof. destruct x, y; simpl; congruence. Qed.

Lemma fadd_not_finite_r (x y : float) :
  is_finite y = false -> is_finite (fadd x y) = false.
Proof. destruct x, y; simpl; congruence. Qed.

Lemma fdiv_not_finite_l (x y : float) :
  is_finite x = false -> is_finite (fdiv x y) = false.
Proof.
  destruct x, y; simpl; try congruence; intros _;
    now destruct (a ?= 0)%Qc.
Qed.

Lemma fdiv_by_zero_not_finite (x : float) :
  is_finite (fdiv x (Fin 0%Qc)) = false.
Proof.
  destruct x; simpl; trivial.
  destruct (Qc_eq_dec 0 0) as [_|N]; [|now elim N].
  now destruct (a ?= 0)%Qc.
Qed.

Lemma fdiv_numbers (a b : Qc) :
  b <> 0%Qc -> fdiv (Fin a) (Fin b) = Fin (a / b)%Qc.
Proof.
  intros Hb. simpl. now destruct (Qc_eq_dec b 0).
Qed.

Lemma fold_fadd_not_finite_acc (l : vector) (acc : float) :
  is_finite acc = false -> is_finite (fold_left fadd l acc) = false.
Proof.
  revert acc. induction l as [|x l IH]; intros acc H; simpl; trivial.
  apply IH. now apply fadd_not_finite_l.
Qed.

Lemma np_sum_not_finite (l : vector) (x : float) :
  In x l -> is_finite x = false -> is_finite (np_sum l) = false.
Proof.
  unfold np_sum. generalize (Fin 0%Qc : float).
  induction l as [|y l IH]; intros acc Hin Hx; simpl in *; [easy|].
  destruct Hin as [->|Hin].
  - apply fold_fadd_not_finite_acc. now apply fadd_not_finite_r.
  - now apply IH.
Qed.

(** ** relative_mean_absolute_error *)

Lemma np_binop_same_length (f : float -> float -> float) (xs ys : vector) :
  length xs = length ys ->
  np_binop f xs ys = Ok (map (fun p => f (fst p) (snd p)) (combine xs ys)).
Proof.
  intros H. unfold np_binop. now rewrite H, Nat.eqb_refl.
Qed.

Lemma deviations_zip (y_true y_pred : vector) :
  length y_true = length y_pred ->
  map (fun p => fdiv (fst p) (snd p))
      (combine
         (np_abs (map (fun p => fsub (fst p) (snd p)) (combine y_pred y_true)))
         (np_abs y_true))
  = map (fun tp => relative_deviation (fst tp) (snd tp))
        (combine y_true y_pred).
Proof.
  revert y_pred.
  induction y_true as [|t ts IH]; intros [|p ps] H; simpl in *;
    try discriminate; trivial.
  f_equal. apply IH. lia.
Qed.

Lemma rmae_diff_same_length (y_true y_pred : vector) :
  length y_true = length y_pred ->
  relative_mean_absolute_error_diff y_true y_pred
  = Ok (map (fun tp => relative_deviation (fst tp) (snd tp))
            (combine y_true y_pred)).
Proof.
  intros H. unfold relative_mean_absolute_error_diff.
  rewrite np_binop_same_length by now symmetry.
  cbn [bind].
  rewrite np_binop_same_length.
  - now rewrite deviations_zip.
  - unfold np_abs. rewrite !length_map, length_combine. lia.
Qed.

Lemma relative_deviation_zero_true (p : float) :
  is_finite (relative_deviation (Fin 0%Qc) p) = false.
Proof.
  unfold relative_deviation. cbn [fabs]. rewrite Qcabs_0.
  apply fdiv_by_zero_not_finite.
Qed.

Lemma in_combine_pair {A B : Type} (x : A) (l : list A) (l' : list B) :
  length l = length l' -> In x l -> exists y, In (x, y) (combine l l').
Proof.
  revert l'. induction l as [|a l IH]; intros [|b l'] H Hin; simpl in *;
    try discriminate; try easy.
  destruct Hin as [->|Hin].
  - exists b. now left.
  - destruct (IH l') as [y Hy]; try lia; trivial. exists y. now right.
Qed.

(** ** np.unique and the contingency matrix *)

Lemma float_eqb_eq (x y : float) : float_eqb x y = true -> x = y.
Proof.
  destruct x, y; simpl; try discriminate; trivial.
  intros H. f_equal. now apply Qc_eq_bool_correct.
Qed.

Lemma list_eqb_eq {A : Type} (eqb : A -> A -> bool) :
  (forall x y, eqb x y = true -> x = y) ->
  forall u v, list_eqb eqb u v = true -> u = v.
Proof.
  intros Heq. induction u as [|x u IH]; intros [|y v]; simpl;
    try discriminate; trivial.
  intros H. apply andb_prop in H as [H1 H2].
  f_equal; auto.
Qed.

Lemma vector_eqb_eq (u v : vector) : vector_eqb u v = true -> u = v.
Proof. apply list_eqb_eq, float_eqb_eq. Qed.

Lemma matrix_eqb_eq (m n : matrix) : matrix_eqb m n = true -> m = n.
Proof. apply list_eqb_eq, vector_eqb_eq. Qed.

Lemma insert_label_In (x z : label) (l : list label) :
  In z (insert_label x l) <-> z = x \/ In z l.
Proof.
  induction l as [|y t IH]; simpl.
  - intuition.
  - destruct (Z.compare_spec x y) as [E|L|G]; simpl.
    + subst. intuition.
    + intuition.
    + rewrite IH. intuition.
Qed.

Lemma np_unique_In (z : label) (y : list label) :
  In z (np_unique y) <-> In z y.
Proof.
  induction y as [|x t IH]; simpl; [tauto|].
  rewrite insert_label_In, IH. intuition.
Qed.

Lemma insert_label_increasing (x : label) (l : list label) :
  increasing l -> increasing (insert_label x l).
Proof.
  induction 1 as [|y t Hy Ht IH]; simpl.
  - constructor; [easy | constructor].
  - destruct (Z.compare_spec x y) as [E|L|G].
    + now constructor.
    + constructor; [|now constructor].
      intros z [<-|Hz]; trivial. specialize (Hy z Hz). lia.
    + constructor; trivial.
      intros z Hz. apply insert_label_In in Hz as [->|Hz]; auto.
Qed.

Lemma np_unique_increasing (y : list label) : increasing (np_unique y).
Proof.
  induction y as [|x t IH]; simpl.
  - constructor.
  - now apply insert_label_increasing.
Qed.

Lemma increasing_NoDup (l : list label) : increasing l -> NoDup l.
Proof.
  induction 1 as [|x t Hx Ht IH]; constructor; trivial.
  intros Hin. specialize (Hx x Hin). lia.
Qed.

Lemma np_unique_NoDup (y : list label) : NoDup (np_unique y).
Proof. apply increasing_NoDup, np_unique_increasing. Qed.

Lemma np_unique_nonempty (y : list label) : y <> [] -> np_unique y <> [].
Proof.
  destruct y as [|x t]; [congruence | intros _ E].
  assert (H : In x (np_unique (x :: t))) by (apply np_unique_In; now left).
  rewrite E in H. easy.
Qed.

Lemma class_size_pos (c : label) (y : list label) :
  In c y -> (0 < class_size c y)%nat.
Proof.
  unfold class_size. induction y as [|x t IH]; simpl; [easy|].
  intros [->|H].
  - rewrite Z.eqb_refl. simpl. lia.
  - destruct (Z.eqb x c); simpl; auto with arith.
Qed.

(** On [(y, y)] a sample falls in cell [(a, b)] only when [a = b]. *)
Lemma count_pair_same (a b : label) (y : list label) :
  count_pair a b (combine y y)
  = if Z.eqb a b then class_size a y else 0%nat.
Proof.
  unfold count_pair, class_size.
  destruct (Z.eqb_spec a b) as [<-|Nab].
  - induction y as [|x t IH]; simpl; trivial.
    destruct (Z.eqb x a); simpl; now rewrite IH.
  - induction y as [|x t IH]; simpl; trivial.
    destruct (Z.eqb_spec x a), (Z.eqb_spec x b); simpl; trivial.
    congruence.
Qed.

Lemma diagonal_from_table
  (f : label -> label -> float) (pre l : list label) :
  diagonal_from (length pre) (map (fun a => map (f a) (pre ++ l)) l)
  = map (fun a => f a a) l.
Proof.
  revert pre. induction l as [|a l IH]; intros pre; simpl; trivial.
  rewrite nth_error_map, nth_error_app2, Nat.sub_diag by lia. simpl.
  f_equal.
  specialize (IH (pre ++ [a])).
  rewrite length_app, Nat.add_1_r, <- app_assoc in IH. exact IH.
Qed.

Lemma diagonal_table (f : label -> label -> float) (l : list label) :
  diagonal (map (fun a => map (f a) l) l) = map (fun a => f a a) l.
Proof. exact (diagonal_from_table f [] l). Qed.

Lemma fold_fadd_off_class (a : label) (n : nat) (l : list label) (s : Qc) :
  ~ In a l ->
  fold_left fadd
    (map (fun b => Fin (qn (if Z.eqb a b then n else 0%nat))) l) (Fin s)
  = Fin s.
Proof.
  revert s. induction l as [|b l IH]; intros s Hn; simpl; trivial.
  destruct (Z.eqb_spec a b) as [->|Hab].
  - elim Hn. now left.
  - rewrite qn_0, Qcplus_0_r. apply IH. intros H. apply Hn. now right.
Qed.

Lemma fold_fadd_on_class (a : label) (n : nat) (l : list label) (s : Qc) :
  NoDup l -> In a l ->
  fold_left fadd
    (map (fun b => Fin (qn (if Z.eqb a b then n else 0%nat))) l) (Fin s)
  = Fin (s + qn n)%Qc.
Proof.
  intros Hnd. revert s.
  induction Hnd as [|b l Hb Hnd IH]; intros s Hin; simpl; [easy|].
  destruct (Z.eqb_spec a b) as [->|Hab].
  - now apply fold_fadd_off_class.
  - rewrite qn_0, Qcplus_0_r. apply IH. destruct Hin; congruence.
Qed.

(** ** Products and roots *)

Lemma fold_fmul_numbers (l : list Qc) (a : Qc) :
  fold_left fmul (map Fin l) (Fin a) = Fin (a * qprod l)%Qc.
Proof.
  revert a. induction l as [|x l IH]; intros a; simpl.
  - f_equal. ring.
  - rewrite IH. f_equal. ring.
Qed.

Lemma np_prod_numbers (l : list Qc) : np_prod (map Fin l) = Fin (qprod l).
Proof.
  unfold np_prod. rewrite fold_fmul_numbers. f_equal. ring.
Qed.

Lemma Q2R_one : Q2R 1%Qc = 1%R.
Proof. vm_compute this. unfold Q2R. simpl. lra. Qed.

Lemma float_pow_one (e : Qc) : float_pow (Fin 1%Qc) e = Fin 1%R.
Proof.
  unfold float_pow.
  replace (1 ?= 0)%Qc with Gt by reflexivity.
  f_equal. rewrite Q2R_one. unfold Rpower.
  now rewrite ln_1, Rmult_0_r, exp_0.
Qed.

Lemma float_pow_zero (e : Qc) : float_pow (Fin 0%Qc) e = Fin 0%R.
Proof. reflexivity. Qed.

(** ** g_score *)

Lemma py_one_over_pos (n : nat) :
  (0 < n)%nat -> py_one_over n = Ok (/ qn n)%Qc.
Proof. destruct n; [lia | reflexivity]. Qed.

Lemma contingency_rows (y_true y_pred : list label) (eps : option float)
  (c : matrix) :
  contingency_matrix y_true y_pred eps false = Ok c ->
  length c = length (np_unique y_true).
Proof.
  unfold contingency_matrix.
  destruct eps; simpl; intros E; inversion E; now rewrite ?length_map.
Qed.

(** The contingency matrix of a labelling with itself: class sizes on the
    diagonal, and the same class sizes as row sums. *)
Lemma contingency_self (y : list label) :
  exists c,
    contingency_matrix y y None false = Ok c
    /\ length c = length (np_unique y)
    /\ diagonal c = map Fin (map (fun a => qn (class_size a y)) (np_unique y))
    /\ row_sums c
       = map Fin (map (fun a => qn (class_size a y)) (np_unique y)).
Proof.
  eexists. split; [reflexivity|].
  set (cl := np_unique y).
  set (f := fun a b : label =>
              Fin (qn (if Z.eqb a b then class_size a y else 0%nat)) : float).
  assert (HM : map (fun a => map (fun b =>
                 Fin (qn (count_pair a b (combine y y)))) cl) cl
               = map (fun a => map (f a) cl) cl).
  { apply map_ext. intros a. apply map_ext. intros b. unfold f.
    now rewrite count_pair_same. }
  rewrite HM. split; [now rewrite length_map|]. split.
  - rewrite diagonal_table, map_map. apply map_ext. intros a.
    unfold f. now rewrite Z.eqb_refl.
  - unfold row_sums. rewrite !map_map. apply map_ext_in. intros a Ha.
    unfold np_sum, f.
    rewrite fold_fadd_on_class; trivial.
    + f_equal. ring.
    + apply np_unique_NoDup.
Qed.

(** C5. With [eps] set and [sparse] true the call always fails, and for
    label arrays of equal length the failure is the one of the
    mutually exclusive options, a configuration error; with [sparse] false
    that failure never happens, whatever [eps], and for non-empty arrays of
    equal length the call returns. *)
Theorem g_score_eps_sparse_exclusive
  (y_true y_pred : list label) (e : float) :
  raises (g_score y_true y_pred (Some e) true)
  /\ (length y_true = length y_pred ->
      g_score y_true y_pred (Some e) true = Raise (ValueError msg_eps_sparse))
  /\ kind_of (ValueError msg_eps_sparse) = ConfigurationError
  /\ (forall eps : option float,
         g_score y_true y_pred eps false <> Raise (ValueError msg_eps_sparse)
         /\ (length y_true = length y_pred -> y_true <> [] ->
             returns (g_score y_true y_pred eps false))).
Proof.
  unfold g_score, check_clusterings, raises, returns.
  repeat split.
  - destruct (Nat.eqb _ _); cbn; eexists; reflexivity.
  - intros ->. now rewrite Nat.eqb_refl.
  - destruct (Nat.eqb _ _); cbn [bind]; [|discriminate].
    destruct (contingency_matrix y_true y_pred eps false) as [c|x] eqn:Hc.
    + cbn [bind]. destruct (length c); cbn; discriminate.
    + unfold contingency_matrix in Hc. destruct eps; discriminate.
  - intros Hlen Hne. rewrite Hlen, Nat.eqb_refl. cbn [bind].
    destruct (contingency_matrix y_true y_pred eps false) as [c|x] eqn:Hc.
    + cbn [bind]. rewrite (contingency_rows _ _ _ Hc), py_one_over_pos.
      * eexists. reflexivity.
      * pose proof (np_unique_nonempty Hne).
        destruct (np_unique y_true); [congruence | simpl; lia].
    + unfold contingency_matrix in Hc. destruct eps; discriminate.
Qed.

Lemma g_score_eps_sparse_exclusive_witness :
  length [0; 1]%Z = length [1; 1]%Z
  /\ g_score [0; 1]%Z [1; 1]%Z (Some (Fin 1%Qc)) true
     = Raise (ValueError msg_eps_sparse)
  /\ returns (g_score [0; 1]%Z [1; 1]%Z (Some (Fin 1%Qc)) false).
Proof.
  pose proof (g_score_eps_sparse_exclusive [0; 1]%Z [1; 1]%Z (Fin 1%Qc))
    as (_ & H1 & _ & H2).
  split; [reflexivity|]. split.
  - apply H1. reflexivity.
  - apply (H2 (Some (Fin 1%Qc))); [reflexivity | discriminate].
Defined.

(** C5 as stated fails when the label arrays differ in length: the size
    check of [check_clusterings] runs before the options are looked at, and
    the call fails with the size error, a shape error, although [eps] is set
    and [sparse] is true. *)
Lemma g_score_eps_sparse_unequal_lengths :
  g_score [0; 1]%Z [0]%Z (Some (Fin 1%Qc)) true
  = Raise (ValueError msg_same_size)
  /\ kind_of (ValueError msg_same_size) = ShapeError
  /\ g_score [0; 1]%Z [0]%Z (Some (Fin 1%Qc)) true
     <> Raise (ValueError msg_eps_sparse).
Proof. repeat split. discriminate. Qed.

Lemma Q2R_frac (a : Z) (b : positive) :
  Q2R (frac a b) = (IZR a / IZR (Zpos b))%R.
Proof.
  unfold frac, Q2Qc. cbn [this].
  rewrite (Qeq_eqR _ _ (Qred_correct (a # b))). reflexivity.
Qed.

Lemma Rpower_half_of_square (x : R) :
  (0 < x)%R -> Rpower (x * x) (1 / 2) = x.
Proof.
  intros Hx. replace (1 / 2)%R with (/ 2)%R by lra.
  rewrite Rpower_sqrt by nra. apply sqrt_square. lra.
Qed.

(** C1 at [y_true = [0, 0, 1, 1]], [y_pred = [0, 1, 0, 1]].  Every cell of
    the contingency matrix is 1 and both true rates are 1/2, so their
    geometric mean is 1/2; the column-against-row division yields the 2x2
    table of all four quotients, whose product is 1/16, and the code
    returns 1/4. *)
Theorem g_score_broadcasts_rates :
  exists c,
    contingency_matrix [0; 0; 1; 1]%Z [0; 1; 0; 1]%Z None false = Ok c
    /\ per_class_true_rates c = [Fin (frac 1 2); Fin (frac 1 2)]
    /\ true_rates c = [[Fin (frac 1 2); Fin (frac 1 2)];
                       [Fin (frac 1 2); Fin (frac 1 2)]]
    /\ geometric_mean_of_true_rates c = Ok (Fin (1 / 2)%R)
    /\ g_score [0; 0; 1; 1]%Z [0; 1; 0; 1]%Z None false = Ok (Fin (1 / 4)%R)
    /\ g_score [0; 0; 1; 1]%Z [0; 1; 0; 1]%Z None false
       <> geometric_mean_of_true_rates c.
Proof.
  pose (y_true := [0; 0; 1; 1]%Z). pose (y_pred := [0; 1; 0; 1]%Z).
  pose (c := map (fun a => map (fun b =>
                Fin (qn (count_pair a b (combine y_true y_pred))))
                (np_unique y_pred)) (np_unique y_true) : matrix).
  exists c. split; [reflexivity|].
  assert (Hrates : per_class_true_rates c = [Fin (frac 1 2); Fin (frac 1 2)]).
  { apply vector_eqb_eq. vm_compute. reflexivity. }
  assert (Htable : true_rates c = [[Fin (frac 1 2); Fin (frac 1 2)];
                                   [Fin (frac 1 2); Fin (frac 1 2)]]).
  { apply matrix_eqb_eq. vm_compute. reflexivity. }
  assert (Hexp : py_one_over (length c) = Ok (frac 1 2)).
  { cbn. f_equal; apply Qc_is_canon; reflexivity. }
  assert (Hmean : geometric_mean_of_true_rates c = Ok (Fin (1 / 2)%R)).
  { unfold geometric_mean_of_true_rates. rewrite Hexp, Hrates. cbn [bind].
    replace (np_prod [Fin (frac 1 2); Fin (frac 1 2)]) with (Fin (frac 1 4) : float)
      by (symmetry; apply float_eqb_eq; vm_compute; reflexivity).
    unfold float_pow.
    replace (frac 1 4 ?= 0)%Qc with Gt by reflexivity.
    rewrite !Q2R_frac. do 2 f_equal.
    replace (1 / 4)%R with ((1 / 2) * (1 / 2))%R by lra.
    apply Rpower_half_of_square. lra. }
  assert (Hcode : g_score [0; 0; 1; 1]%Z [0; 1; 0; 1]%Z None false
                  = Ok (Fin (1 / 4)%R)).
  { unfold g_score. cbn [check_clusterings length Nat.eqb bind].
    change (contingency_matrix [0; 0; 1; 1]%Z [0; 1; 0; 1]%Z None false)
      with (Ok c).
    cbn [bind]. rewrite Hexp, Htable. cbn [bind].
    replace (np_prod2 [[Fin (frac 1 2); Fin (frac 1 2)];
                       [Fin (frac 1 2); Fin (frac 1 2)]])
      with (Fin (frac 1 16) : float)
      by (symmetry; apply float_eqb_eq; vm_compute; reflexivity).
    unfold float_pow.
    replace (frac 1 16 ?= 0)%Qc with Gt by reflexivity.
    rewrite !Q2R_frac. do 2 f_equal.
    replace (1 / 16)%R with ((1 / 4) * (1 / 4))%R by lra.
    apply Rpower_half_of_square. lra. }
  repeat split; trivial.
  rewrite Hcode, Hmean. intros E. injection E as E. lra.
Qed.

(** ** geometric_roc_auc_score *)

Lemma numbers_are_rationals (l : vector) :
  Forall number l -> exists qs : list Qc, l = map Fin qs.
Proof.
  induction 1 as [|x l Hx Hl (qs & ->)].
  - now exists [].
  - destruct x as [a| | |]; try discriminate Hx. now exists (a :: qs).
Qed.

Lemma qprod_zero (qs : list Qc) : In 0%Qc qs -> qprod qs = 0%Qc.
Proof.
  induction qs as [|q qs IH]; simpl; [easy|].
  intros [->|H].
  - ring.
  - rewrite IH by trivial. ring.
Qed.

Lemma np_prod_zero_factor (l : vector) :
  Forall number l -> In (Fin 0%Qc) l -> np_prod l = Fin 0%Qc.
Proof.
  intros Hn Hin. destruct (numbers_are_rationals Hn) as (qs & ->).
  rewrite np_prod_numbers. f_equal. apply qprod_zero.
  apply in_map_iff in Hin as (q & E & Hq). now inversion E; subst.
Qed.

Lemma one_hot_columns (y : list label) (truth : list vector) :
  one_hot y = Ok truth ->
  y <> [] /\ length truth = length (np_unique y).
Proof.
  unfold one_hot. destruct y as [|l y]; [discriminate|].
  destruct (existsb _ _); [discriminate|].
  intros E. inversion E. split; [discriminate | now rewrite length_map].
Qed.

Lemma np_unique_length_pos (y : list label) :
  y <> [] -> (0 < length (np_unique y))%nat.
Proof.
  intros H. apply np_unique_nonempty in H.
  destruct (np_unique y); [congruence | simpl; lia].
Qed.

Section GeometricRocAucProperties.

Context {backend : RocBackend}.

Variables (pos_label : option label) (sample_weight : option vector).
Variables (drop_intermediate reorder : bool).

Lemma geometric_score_of_aucs
  (y_true : list label) (y_score : array2) (aucs : vector) :
  classes_auc y_true y_score pos_label sample_weight drop_intermediate
    reorder = Ok aucs ->
  geometric_roc_auc_score y_true y_score pos_label sample_weight
    drop_intermediate reorder
  = Ok (float_pow (np_prod aucs) (/ qn (length (np_unique y_true)))%Qc).
Proof.
  intros H. unfold geometric_roc_auc_score. rewrite H. cbn [bind].
  unfold classes_auc in H.
  destruct (one_hot y_true) as [truth|e] eqn:Ht; [|discriminate].
  apply one_hot_columns in Ht as [Hne _].
  now rewrite py_one_over_pos by now apply np_unique_length_pos.
Qed.

(** Past the last column the loop cannot finish. *)
Lemma classes_auc_from_short
  (truth : list vector) (y_score : array2) (i : nat) :
  (i <= ncols y_score)%nat ->
  (ncols y_score < i + length truth)%nat ->
  raises (classes_auc_from i truth y_score pos_label sample_weight
            drop_intermediate reorder).
Proof.
  revert i. induction truth as [|t truth IH]; intros i Hle H; simpl in *.
  - lia.
  - unfold class_auc at 1, column.
    destruct (Nat.ltb_spec i (ncols y_score)) as [Hi|Hi].
    + cbn [bind].
      destruct (roc_curve _ _ _ _ _) as [[[fpr tpr] thr]|e];
        [|eexists; reflexivity].
      cbn [bind].
      destruct (auc fpr tpr reorder) as [a|e]; [|eexists; reflexivity].
      cbn [bind].
      destruct (IH (S i)) as [e He]; [lia | lia |].
      rewrite He. eexists; reflexivity.
    + eexists; reflexivity.
Qed.

Lemma column_first_columns (k i : nat) (y_score : array2) :
  (i < k)%nat ->
  column (first_columns k y_score) i = column y_score i
  \/ (ncols y_score <= i)%nat.
Proof.
  intros Hik. unfold column, first_columns. cbn [ncols rows].
  destruct (Nat.ltb_spec i (ncols y_score)) as [Hi|Hi]; [left | now right].
  destruct (Nat.ltb_spec i (Nat.min k (ncols y_score))); [|lia].
  f_equal. rewrite map_map. apply map_ext. intros r.
  rewrite <- (firstn_skipn k r) at 2.
  destruct (Nat.lt_ge_cases i (length (firstn k r))) as [Hl|Hl].
  - now rewrite app_nth1.
  - rewrite nth_overflow by trivial.
    rewrite length_firstn in Hl.
    rewrite firstn_skipn. symmetry. apply nth_overflow. lia.
Qed.

(** The loop reads only the columns it indexes. *)
Lemma classes_auc_from_first_columns
  (truth : list vector) (y_score : array2) (k i : nat) :
  (i + length truth <= k)%nat ->
  (k <= ncols y_score)%nat ->
  classes_auc_from i truth (first_columns k y_score) pos_label
    sample_weight drop_intermediate reorder
  = classes_auc_from i truth y_score pos_label sample_weight
      drop_intermediate reorder.
Proof.
  revert i. induction truth as [|t truth IH]; intros i H Hk; simpl in *;
    trivial.
  unfold class_auc.
  destruct (@column_first_columns k i y_score) as [->|Hi]; [lia| |lia].
  rewrite IH by lia. reflexivity.
Qed.

End GeometricRocAucProperties.

Lemma result_vector_by_computation (r : result vector) (v : vector) :
  match r with Ok u => vector_eqb u v | Raise _ => false end = true ->
  r = Ok v.
Proof.
  destruct r as [u|e]; [|discriminate].
  intros H. f_equal. now apply vector_eqb_eq.
Qed.

(** C7, as the code has it.  When every per-class AUC is a number between
    0 and 1, as an area under a ROC curve is, and one of them is 0, the call
    returns 0. *)
Theorem geometric_roc_auc_zero_class {backend : RocBackend}
  (y_true : list label) (y_score : array2)
  (pos_label : option label) (sample_weight : option vector)
  (drop_intermediate reorder : bool) (aucs : vector) :
  classes_auc y_true y_score pos_label sample_weight drop_intermediate
    reorder = Ok aucs ->
  Forall unit_number aucs ->
  In (Fin 0%Qc) aucs ->
  geometric_roc_auc_score y_true y_score pos_label sample_weight
    drop_intermediate reorder = Ok (Fin 0%R).
Proof.
  intros Hauc Hunit Hzero.
  rewrite (geometric_score_of_aucs _ _ _ _ _ _ Hauc).
  rewrite np_prod_zero_factor; trivial.
  eapply Forall_impl; [|exact Hunit].
  now intros x (q & -> & _).
Qed.

Lemma unit_number_zero : unit_number (Fin 0%Qc).
Proof. exists 0%Qc. repeat split; discriminate. Qed.

Lemma unit_number_one : unit_number (Fin 1%Qc).
Proof. exists 1%Qc. repeat split; discriminate. Qed.

Lemma geometric_roc_auc_zero_class_witness :
  geometric_roc_auc_score (backend := sklearn_backend)
    [0; 1]%Z
    (Array2 2 [[Fin (frac 1 10); Fin (frac 2 10)];
               [Fin (frac 8 10); Fin (frac 9 10)]])
    None None true false = Ok (Fin 0%R).
Proof.
  apply geometric_roc_auc_zero_class with (aucs := [Fin 0%Qc; Fin 1%Qc]).
  - apply result_vector_by_computation. vm_compute. reflexivity.
  - repeat constructor; [exact unit_number_zero | exact unit_number_one].
  - left. reflexivity.
Defined.

(** C7 as stated fails when a per-class AUC is nan.  Three classes, the one
    sample of the last class with weight zero: the curve of that class has
    no positive weight, its true-positive rates are nan and so is its AUC.
    The AUC of the first class is 0, and the call returns nan, not 0. *)
Lemma geometric_roc_auc_zero_class_nan :
  let y_true := [0; 1; 2]%Z in
  let y_score :=
    Array2 3 [[Fin (frac 1 10); Fin (frac 2 10); Fin (frac 5 10)];
              [Fin (frac 8 10); Fin (frac 9 10); Fin (frac 5 10)];
              [Fin (frac 5 10); Fin (frac 1 10); Fin (frac 9 10)]] in
  let sample_weight := Some [Fin 1%Qc; Fin 1%Qc; Fin 0%Qc] in
  classes_auc (backend := sklearn_backend)
    y_true y_score None sample_weight true false
  = Ok [Fin 0%Qc; Fin 1%Qc; NaN]
  /\ geometric_roc_auc_score (backend := sklearn_backend)
       y_true y_score None sample_weight true false = Ok NaN
  /\ geometric_roc_auc_score (backend := sklearn_backend)
       y_true y_score None sample_weight true false <> Ok (Fin 0%R).
Proof.
  intros y_true y_score sample_weight.
  assert (Ha : classes_auc (backend := sklearn_backend)
                 y_true y_score None sample_weight true false
               = Ok [Fin 0%Qc; Fin 1%Qc; NaN]).
  { apply result_vector_by_computation. vm_compute. reflexivity. }
  assert (Hs : geometric_roc_auc_score (backend := sklearn_backend)
                 y_true y_score None sample_weight true false = Ok NaN).
  { rewrite geometric_score_of_aucs with (aucs := [Fin 0%Qc; Fin 1%Qc; NaN])
      by exact Ha.
    reflexivity. }
  repeat split; trivial. rewrite Hs. discriminate.
Qed.

(** C4, as the code has it.  With fewer score columns than classes the
    call fails; with more, the columns past the class count are never read
    and the result is the one for the first [C] columns. *)
Theorem geometric_roc_auc_columns {backend : RocBackend}
  (y_true : list label) (y_score : array2)
  (pos_label : option label) (sample_weight : option vector)
  (drop_intermediate reorder : bool) :
  ((ncols y_score < length (np_unique y_true))%nat ->
   raises (geometric_roc_auc_score y_true y_score pos_label sample_weight
             drop_intermediate reorder))
  /\
  ((length (np_unique y_true) <= ncols y_score)%nat ->
   geometric_roc_auc_score y_true y_score pos_label sample_weight
     drop_intermediate reorder
   = geometric_roc_auc_score y_true
       (first_columns (length (np_unique y_true)) y_score)
       pos_label sample_weight drop_intermediate reorder).
Proof.
  unfold geometric_roc_auc_score, classes_auc. split; intros H.
  - destruct (one_hot y_true) as [truth|e] eqn:Ht;
      [|eexists; reflexivity].
    apply one_hot_columns in Ht as [_ Hlen]. cbn [bind].
    destruct (classes_auc_from_short pos_label sample_weight
                drop_intermediate reorder truth y_score (i := 0))
      as [e He]; [lia | lia |].
    rewrite He. eexists; reflexivity.
  - destruct (one_hot y_true) as [truth|e] eqn:Ht; [|reflexivity].
    apply one_hot_columns in Ht as [_ Hlen]. cbn [bind].
    rewrite classes_auc_from_first_columns by lia. reflexivity.
Qed.

Lemma geometric_roc_auc_columns_witness :
  raises (geometric_roc_auc_score (backend := sklearn_backend)
            [0; 1]%Z
            (Array2 1 [[Fin (frac 1 10)]; [Fin (frac 8 10)]])
            None None true false)
  /\
  geometric_roc_auc_score (backend := sklearn_backend)
    [0; 1]%Z
    (Array2 3 [[Fin (frac 9 10); Fin (frac 1 10); Fin (frac 5 10)];
               [Fin (frac 2 10); Fin (frac 8 10); Fin (frac 5 10)]])
    None None true false
  = geometric_roc_auc_score (backend := sklearn_backend)
      [0; 1]%Z
      (first_columns 2
         (Array2 3 [[Fin (frac 9 10); Fin (frac 1 10); Fin (frac 5 10)];
                    [Fin (frac 2 10); Fin (frac 8 10); Fin (frac 5 10)]]))
      None None true false.
Proof.
  split.
  - apply (proj1 (geometric_roc_auc_columns (backend := sklearn_backend)
                    [0; 1]%Z
                    (Array2 1 [[Fin (frac 1 10)]; [Fin (frac 8 10)]])
                    None None true false)).
    simpl. lia.
  - apply (proj2 (geometric_roc_auc_columns (backend := sklearn_backend)
                    [0; 1]%Z
                    (Array2 3 [[Fin (frac 9 10); Fin (frac 1 10);
                                Fin (frac 5 10)];
                               [Fin (frac 2 10); Fin (frac 8 10);
                                Fin (frac 5 10)]])
                    None None true false)).
    simpl. lia.
Defined.

(** C4 as stated fails: two classes and three score columns, and the call
    returns (both per-class curves are perfect, so it returns 1). *)
Lemma geometric_roc_auc_extra_column_returns :
  let y_true := [0; 1]%Z in
  let y_score :=
    Array2 3 [[Fin (frac 9 10); Fin (frac 1 10); Fin (frac 5 10)];
              [Fin (frac 2 10); Fin (frac 8 10); Fin (frac 5 10)]] in
  length (np_unique y_true) = 2%nat
  /\ ncols y_score = 3%nat
  /\ well_shaped y_score
  /\ geometric_roc_auc_score (backend := sklearn_backend)
       y_true y_score None None true false = Ok (Fin 1%R)
  /\ ~ raises (geometric_roc_auc_score (backend := sklearn_backend)
                 y_true y_score None None true false).
Proof.
  intros y_true y_score.
  assert (H : geometric_roc_auc_score (backend := sklearn_backend)
                y_true y_score None None true false = Ok (Fin 1%R)).
  { rewrite geometric_score_of_aucs with (aucs := [Fin 1%Qc; Fin 1%Qc]).
    - replace (np_prod [Fin 1%Qc; Fin 1%Qc]) with (Fin 1%Qc : float)
        by (symmetry; apply float_eqb_eq; vm_compute; reflexivity).
      now rewrite float_pow_one.
    - apply result_vector_by_computation. vm_compute. reflexivity. }
  repeat split; trivial.
  - repeat constructor.
  - rewrite H. intros [e He]. discriminate He.
Qed.

(** ** separability_score *)

Lemma nth_error_combine {A B : Type} (u : list A) (v : list B) (i : nat) :
  nth_error (combine u v) i
  = match nth_error u i, nth_error v i with
    | Some a, Some b => Some (a, b)
    | _, _ => None
    end.
Proof.
  revert v i. induction u as [|a u IH]; intros [|b v] [|i]; simpl; trivial.
  now destruct (nth_error u i).
Qed.

Lemma diagonal_from_map (g : float -> float) (m : matrix) (i : nat) :
  diagonal_from i (map (map g) m) = map g (diagonal_from i m).
Proof.
  revert i. induction m as [|r m IH]; intros i; simpl; trivial.
  rewrite nth_error_map. destruct (nth_error r i); simpl; trivial.
  now rewrite IH.
Qed.

Lemma diagonal_from_zip (f : float -> float -> float) (m n : matrix)
  (i : nat) :
  diagonal_from i
    (map (fun rs => map (fun p => f (fst p) (snd p))
                        (combine (fst rs) (snd rs)))
         (combine m n))
  = map (fun p => f (fst p) (snd p))
        (combine (diagonal_from i m) (diagonal_from i n)).
Proof.
  revert n i. induction m as [|r m IH]; intros [|s n] i; simpl; trivial.
  - now destruct (nth_error r i).
  - rewrite nth_error_map, nth_error_combine.
    destruct (nth_error r i) as [a|], (nth_error s i) as [b|]; simpl;
      trivial.
    now rewrite IH.
Qed.

(** The last two lines of [separability_score]: the value returned is the
    ratio, or the trace of the entry-by-entry quotient. *)
Lemma score_of_scatter (st sw : ndarray) :
  match nd_binop fdiv st sw with
  | Scalar x => x
  | Matrix m => np_trace m
  end = ratio_or_trace st sw.
Proof.
  destruct st as [t|T], sw as [w|W]; simpl; trivial;
    unfold np_trace, diagonal;
    now rewrite ?diagonal_from_map, ?diagonal_from_zip.
Qed.

Lemma separability_score_of_scatter
  (y_true : list label) (y_pred : projections) (sw st : ndarray) :
  _scatter_matrices y_true y_pred = Ok (sw, st) ->
  separability_score y_true y_pred = Ok (ratio_or_trace st sw).
Proof.
  intros H. unfold separability_score. rewrite H. cbn [bind].
  rewrite <- score_of_scatter. now destruct (nd_binop fdiv st sw).
Qed.

Lemma where_eq_from_bound (i : nat) (y : list label) (c : label) :
  Forall (fun k => (k < i + length y)%nat) (where_eq_from i y c).
Proof.
  revert i. induction y as [|l y IH]; intros i; simpl; [constructor|].
  specialize (IH (S i)).
  assert (H : Forall (fun k => (k < i + S (length y))%nat)
                     (where_eq_from (S i) y c)).
  { eapply Forall_impl; [|exact IH]. simpl. intros; lia. }
  destruct (Z.eqb l c); trivial. constructor; [lia | trivial].
Qed.

Lemma where_eq_from_length (i : nat) (y : list label) (c : label) :
  length (where_eq_from i y c) = class_size c y.
Proof.
  unfold class_size. revert i.
  induction y as [|l y IH]; intros i; simpl; trivial.
  destruct (Z.eqb l c); simpl; now rewrite IH.
Qed.

Lemma take_in_range {A : Type} (P : A -> Prop) (l : list A)
  (idx : list nat) :
  Forall (fun k => (k < length l)%nat) idx ->
  Forall P l ->
  exists l', take l idx = Ok l' /\ length l' = length idx /\ Forall P l'.
Proof.
  intros Hidx HP. induction Hidx as [|k idx Hk Hidx (l' & E & Hlen & HP')].
  - exists []. repeat split; constructor.
  - simpl. destruct (nth_error l k) as [x|] eqn:Ex.
    + rewrite E. cbn [bind]. exists (x :: l'). repeat split.
      * simpl. now rewrite Hlen.
      * constructor; trivial.
        rewrite Forall_forall in HP. eapply HP, nth_error_In; eauto.
    + apply nth_error_None in Ex. lia.
Qed.

Lemma take_class_samples
  (y_true : list label) (y_pred : projections) (c : label) :
  (length y_true <= n_samples y_pred)%nat ->
  rectangular y_pred ->
  exists part,
    take_samples y_pred (np_where_eq y_true c) = Ok part
    /\ n_samples part = class_size c y_true
    /\ same_shape y_pred part
    /\ rectangular part.
Proof.
  intros Hlen Hrect.
  assert (Hidx : forall n, (length y_true <= n)%nat ->
                 Forall (fun k => (k < n)%nat) (np_where_eq y_true c)).
  { intros n Hn. eapply Forall_impl;
      [|exact (where_eq_from_bound 0 y_true c)].
    simpl. intros; lia. }
  destruct y_pred as [v|a]; simpl in *.
  - destruct (take_in_range (P := fun _ => True) (l := v)
                (Hidx _ Hlen)) as (v' & E & Hl & _).
    { apply Forall_forall. trivial. }
    rewrite E. cbn [bind]. exists (Arr1 v'). repeat split.
    simpl. rewrite Hl. apply where_eq_from_length.
  - destruct (take_in_range (l := rows a) (Hidx _ Hlen) Hrect)
      as (r & E & Hl & Hr).
    rewrite E. cbn [bind]. exists (Arr2 (Array2 (ncols a) r)).
    repeat split; trivial.
    simpl. rewrite Hl. apply where_eq_from_length.
Qed.

Lemma class_covariances_return
  (y_true : list label) (y_pred : projections) (classes : list label) :
  (length y_true <= n_samples y_pred)%nat ->
  rectangular y_pred ->
  exists sc,
    class_covariances y_true y_pred classes = Ok sc
    /\ Forall2 (fun c nd =>
                  exists part,
                    n_samples part = class_size c y_true
                    /\ same_shape y_pred part
                    /\ rectangular part
                    /\ nd = np_cov part)
               classes sc.
Proof.
  intros Hlen Hrect.
  induction classes as [|c classes (sc & E & Hsc)]; simpl.
  - exists []. split; [reflexivity | constructor].
  - destruct (take_class_samples y_true y_pred c Hlen Hrect)
      as (part & Ep & Hn & Hs & Hr).
    rewrite Ep, E. cbn [bind]. exists (np_cov part :: sc).
    split; [reflexivity|]. constructor; trivial. now exists part.
Qed.

Lemma np_cov_single_feature (m : projections) :
  single_feature m -> is_scalar (np_cov m).
Proof.
  destruct m as [v|[f rs]]; simpl; [easy|].
  intros ->. unfold np_cov, cov_variables. cbn [rows ncols].
  destruct rs as [|r [|r' rs]]; exact I.
Qed.

Lemma np_cov_several_features (m : projections) :
  several_features m -> n_samples m <> 1%nat -> is_matrix (np_cov m).
Proof.
  destruct m as [v|[f rs]]; simpl; [easy|].
  intros Hf Hn. unfold np_cov, cov_variables. cbn [rows ncols].
  destruct rs as [|r [|r' rs]]; [| now elim Hn |];
    (destruct f as [|[|f]]; [lia | lia | exact I]).
Qed.

Lemma fold_nd_add_scalars (sc : list ndarray) (acc : ndarray) :
  is_scalar acc -> Forall is_scalar sc ->
  is_scalar (fold_left (nd_binop fadd) sc acc).
Proof.
  intros Ha H. revert acc Ha.
  induction H as [|x sc Hx Hsc IH]; intros acc Ha; simpl; trivial.
  apply IH. now destruct acc, x.
Qed.

Lemma fold_nd_add_matrices (sc : list ndarray) (acc : ndarray) :
  Forall is_matrix sc -> (is_matrix acc \/ sc <> []) ->
  is_matrix (fold_left (nd_binop fadd) sc acc).
Proof.
  intros H. revert acc.
  induction H as [|x sc Hx Hsc IH]; intros acc Ha; simpl.
  - destruct Ha; [trivial | congruence].
  - apply IH. left. now destruct acc, x.
Qed.

Lemma np_mean_axis0_scalars (sc : list ndarray) :
  Forall is_scalar sc -> is_scalar (np_mean_axis0 sc).
Proof.
  intros H. unfold np_mean_axis0.
  pose proof (@fold_nd_add_scalars sc (Scalar (Fin 0%Qc)) I H) as Hs.
  now destruct (fold_left _ _ _).
Qed.

Lemma np_mean_axis0_matrices (sc : list ndarray) :
  sc <> [] -> Forall is_matrix sc -> is_matrix (np_mean_axis0 sc).
Proof.
  intros Hne H. unfold np_mean_axis0.
  pose proof (@fold_nd_add_matrices sc (Scalar (Fin 0%Qc)) H
                (or_intror Hne)) as Hs.
  now destruct (fold_left _ _ _).
Qed.

Lemma class_size_le_length (c : label) (y : list label) :
  (class_size c y <= length y)%nat.
Proof. unfold class_size. apply filter_length_le. Qed.

Lemma covariances_scalars
  (y_true : list label) (y_pred : projections)
  (classes : list label) (sc : list ndarray) :
  single_feature y_pred ->
  Forall2 (fun c nd =>
             exists part,
               n_samples part = class_size c y_true
               /\ same_shape y_pred part
               /\ rectangular part
               /\ nd = np_cov part)
          classes sc ->
  Forall is_scalar sc.
Proof.
  intros Hs H.
  induction H as [|c nd classes sc (part & _ & Hsh & _ & ->) _ IH];
    constructor; trivial.
  apply np_cov_single_feature.
  destruct y_pred as [v|a], part as [v'|b]; simpl in *; try easy.
  congruence.
Qed.

Lemma covariances_matrices
  (y_true : list label) (y_pred : projections)
  (classes : list label) (sc : list ndarray) :
  several_features y_pred ->
  Forall (fun c => (2 <= class_size c y_true)%nat) classes ->
  Forall2 (fun c nd =>
             exists part,
               n_samples part = class_size c y_true
               /\ same_shape y_pred part
               /\ rectangular part
               /\ nd = np_cov part)
          classes sc ->
  Forall is_matrix sc.
Proof.
  intros Hs Hc H.
  induction H as [|c nd classes sc (part & Hn & Hsh & _ & ->) _ IH];
    constructor.
  - inversion Hc as [|? ? H2 _]; subst.
    apply np_cov_several_features.
    + destruct y_pred as [v|a], part as [v'|b]; simpl in *; try easy.
      now rewrite <- Hsh.
    + lia.
  - apply IH. now inversion Hc.
Qed.

Lemma scatter_single_feature
  (y_true : list label) (y_pred : projections) :
  length y_true = n_samples y_pred ->
  rectangular y_pred ->
  single_feature y_pred ->
  exists w t, _scatter_matrices y_true y_pred = Ok (Scalar w, Scalar t).
Proof.
  intros Hlen Hrect Hs. unfold _scatter_matrices.
  destruct (class_covariances_return y_true y_pred (np_unique y_true))
    as (sc & E & Hsc); [lia | trivial |].
  rewrite E. cbn [bind].
  assert (Hw : is_scalar (np_mean_axis0 sc)).
  { apply np_mean_axis0_scalars. eapply covariances_scalars; eauto. }
  assert (Ht : is_scalar (np_cov y_pred)).
  { now apply np_cov_single_feature. }
  destruct (np_mean_axis0 sc) as [w|]; [|easy].
  destruct (np_cov y_pred) as [t|]; [|easy].
  now exists w, t.
Qed.

Lemma scatter_several_features
  (y_true : list label) (y_pred : projections) :
  length y_true = n_samples y_pred ->
  rectangular y_pred ->
  several_features y_pred ->
  y_true <> [] ->
  (forall c, In c y_true -> (2 <= class_size c y_true)%nat) ->
  exists W T, _scatter_matrices y_true y_pred = Ok (Matrix W, Matrix T).
Proof.
  intros Hlen Hrect Hs Hne Hsize. unfold _scatter_matrices.
  destruct (class_covariances_return y_true y_pred (np_unique y_true))
    as (sc & E & Hsc); [lia | trivial |].
  rewrite E. cbn [bind].
  assert (Hall : Forall (fun c => (2 <= class_size c y_true)%nat)
                        (np_unique y_true)).
  { apply Forall_forall. intros c Hc. now apply Hsize, np_unique_In. }
  assert (Hsc_ne : sc <> []).
  { pose proof (np_unique_nonempty Hne) as Hu.
    destruct Hsc; [congruence | discriminate]. }
  assert (Hw : is_matrix (np_mean_axis0 sc)).
  { apply np_mean_axis0_matrices; trivial.
    eapply covariances_matrices; eauto. }
  assert (Hn : n_samples y_pred <> 1%nat).
  { destruct y_true as [|c y]; [congruence|].
    pose proof (Hsize c (or_introl eq_refl)).
    pose proof (class_size_le_length c (c :: y)). lia. }
  assert (Ht : is_matrix (np_cov y_pred)).
  { now apply np_cov_several_features. }
  destruct (np_mean_axis0 sc) as [|W]; [easy|].
  destruct (np_cov y_pred) as [|T]; [easy|].
  now exists W, T.
Qed.
























Lemma one_sample_variance_nan (x : float) :
  fmul (dot (center [x]) (center [x])) (fdiv (Fin 1%Qc) (Fin (qn 0))) = NaN.
Proof.
  assert (Hscale : fdiv (Fin 1%Qc) (Fin (qn 0)) = PInf).
  { rewrite qn_0. simpl. now destruct (Qc_eq_dec 0 0). }
  rewrite Hscale.
  assert (H1 : qn 1 = 1%Qc) by (rewrite qn_S, qn_0; ring).
  unfold center, np_mean, dot, np_sum. cbn [length map combine fold_left fst snd].
  rewrite H1.
  destruct x as [a| | |]; cbn [fadd fdiv fsub fneg fmul]; trivial.
  destruct (Qc_eq_dec 1 0) as [E|_]; [discriminate E|].
  cbn [fadd fdiv fsub fneg fmul fmul_inf].
  replace (0 + (a + - ((0 + a) / 1)) * (a + - ((0 + a) / 1)))%Qc with 0%Qc
    by (field; discriminate).
  reflexivity.
Qed.

Lemma np_cov_one_sample (part : projections) :
  single_feature part -> rectangular part -> n_samples part = 1%nat ->
  np_cov part = Scalar NaN.
Proof.
  destruct part as [v|[f rs]]; simpl.
  - intros _ _ Hn. destruct v as [|x [|y v]]; try discriminate.
    unfold np_cov. cbn [cov_variables cov_observations map length Nat.pred squeeze].
    now rewrite one_sample_variance_nan.
  - intros -> Hr Hn. destruct rs as [|r [|r' rs]]; try discriminate.
    unfold well_shaped in Hr. cbn [rows ncols] in Hr.
    inversion Hr as [|? ? Hlen _]; subst.
    destruct r as [|x [|y r]]; try discriminate.
    unfold np_cov.
    cbn [cov_variables cov_observations rows ncols map length Nat.pred squeeze].
    now rewrite one_sample_variance_nan.
Qed.

Lemma fold_nd_add_nan_acc (sc : list ndarray) :
  Forall is_scalar sc ->
  fold_left (nd_binop fadd) sc (Scalar NaN) = Scalar NaN.
Proof.
  induction 1 as [|x sc Hx Hsc IH]; simpl; trivial.
  destruct x; [|easy]. exact IH.
Qed.

Lemma fold_nd_add_nan_in (sc : list ndarray) (a : float) :
  Forall is_scalar sc -> In (Scalar NaN) sc ->
  fold_left (nd_binop fadd) sc (Scalar a) = Scalar NaN.
Proof.
  intros H. revert a.
  induction H as [|x sc Hx Hsc IH]; intros a Hin; simpl; [easy|].
  destruct Hin as [->|Hin].
  - simpl. replace (fadd a NaN) with (NaN : float) by now destruct a.
    now apply fold_nd_add_nan_acc.
  - destruct x; [|easy]. simpl. now apply IH.
Qed.

Lemma Forall2_In_left {A B : Type} (R : A -> B -> Prop)
  (l : list A) (l' : list B) (x : A) :
  Forall2 R l l' -> In x l -> exists y, In y l' /\ R x y.
Proof.
  induction 1 as [|a b l l' Hab Hl IH]; simpl; [easy|].
  intros [->|Hin].
  - exists b. auto.
  - destruct (IH Hin) as (y & Hy & HR). exists y. auto.
Qed.

Lemma class_size_In (c : label) (y : list label) :
  (0 < class_size c y)%nat -> In c y.
Proof.
  unfold class_size. induction y as [|l y IH]; simpl; [lia|].
  destruct (Z.eqb_spec l c) as [->|N]; [now left | right; auto].
Qed.

Lemma separability_one_sample_class
  (y_true : list label) (y_pred : projections) (c : label) :
  length y_true = n_samples y_pred ->
  rectangular y_pred ->
  single_feature y_pred ->
  class_size c y_true = 1%nat ->
  separability_score y_true y_pred = Ok NaN.
Proof.
  intros Hlen Hrect Hs Hc.
  unfold separability_score, _scatter_matrices.
  destruct (class_covariances_return y_true y_pred (np_unique y_true))
    as (sc & E & Hsc); [lia | trivial |].
  rewrite E. cbn [bind].
  assert (Hscal : Forall is_scalar sc).
  { eapply covariances_scalars; eauto. }
  assert (Hin : In (Scalar NaN) sc).
  { assert (Hcu : In c (np_unique y_true)).
    { apply np_unique_In, class_size_In. lia. }
    destruct (@Forall2_In_left _ _ _ _ _ c Hsc Hcu)
      as (nd & Hnd & part & Hn & Hsh & Hr & ->).
    rewrite np_cov_one_sample in Hnd; trivial; [|congruence].
    destruct y_pred as [v|a], part as [v'|b]; simpl in *; try easy.
    congruence. }
  unfold np_mean_axis0. rewrite fold_nd_add_nan_in by trivial.
  pose proof (np_cov_single_feature _ Hs) as Ht.
  destruct (np_cov y_pred) as [t|]; [|easy].
  simpl. now destruct t.
Qed.

Lemma result_float_by_computation (r : result float) (v : float) :
  match r with Ok u => float_eqb u v | Raise _ => false end = true ->
  r = Ok v.
Proof.
  destruct r as [u|e]; [|discriminate].
  intros H. f_equal. now apply float_eqb_eq.
Qed.

Lemma covariance_by_computation (y_pred : projections) (m : matrix) :
  match np_cov y_pred with
  | Matrix c => matrix_eqb c m
  | Scalar _ => false
  end = true ->
  np_cov y_pred = Matrix m.
Proof.
  destruct (np_cov y_pred) as [|c]; [discriminate|].
  intros H. f_equal. now apply matrix_eqb_eq.
Qed.

(** C3, as the code has it.  No degenerate input is refused.  With a single
    feature, a class of exactly one sample makes the score nan; and with a
    single feature, or with several features and at least two samples in
    every class, the call returns whatever the scatter results are, since
    the division is entry by entry and nothing is inverted. *)
Theorem separability_score_degenerate_input
  (y_true : list label) (y_pred : projections) :
  length y_true = n_samples y_pred ->
  rectangular y_pred ->
  (single_feature y_pred ->
   (exists c, class_size c y_true = 1%nat) ->
   separability_score y_true y_pred = Ok NaN)
  /\
  (single_feature y_pred
   \/ (several_features y_pred /\ y_true <> []
       /\ forall c, In c y_true -> (2 <= class_size c y_true)%nat) ->
   returns (separability_score y_true y_pred)).
Proof.
  intros Hlen Hrect. split.
  - intros Hs [c Hc]. now apply separability_one_sample_class with (c := c).
  - intros [Hs|(Hs & Hne & Hsize)].
    + destruct (@scatter_single_feature y_true y_pred Hlen Hrect Hs)
        as (w & t & E).
      rewrite (@separability_score_of_scatter y_true y_pred _ _ E).
      eexists; reflexivity.
    + destruct (@scatter_several_features y_true y_pred Hlen Hrect Hs Hne
                  Hsize) as (W & T & E).
      rewrite (@separability_score_of_scatter y_true y_pred _ _ E).
      eexists; reflexivity.
Qed.

Lemma separability_score_degenerate_input_witness :
  separability_score [0; 1; 1]%Z
    (Arr1 [Fin (qz 1); Fin (qz 2); Fin (qz 3)]) = Ok NaN
  /\ returns (separability_score [0; 1; 1]%Z
                (Arr1 [Fin (qz 1); Fin (qz 2); Fin (qz 3)])).
Proof.
  destruct (@separability_score_degenerate_input
              [0; 1; 1]%Z (Arr1 [Fin (qz 1); Fin (qz 2); Fin (qz 3)])
              eq_refl I) as [H1 H2].
  split.
  - apply H1; [exact I | exists 0%Z; reflexivity].
  - apply H2. left. exact I.
Defined.

(** C3 as stated fails, in both halves.  A class with one sample: the call
    returns nan.  A total covariance that cannot be inverted (two equal
    feature columns, so both its rows are equal): the call returns 14/3. *)
Lemma separability_score_degenerate_returns :
  (class_size 0%Z [0; 1; 1]%Z = 1%nat
   /\ separability_score [0; 1; 1]%Z
        (Arr1 [Fin (qz 1); Fin (qz 2); Fin (qz 3)]) = Ok NaN)
  /\
  (let y_pred :=
     Arr2 (Array2 2 [[Fin (qz 1); Fin (qz 1)]; [Fin (qz 2); Fin (qz 2)];
                     [Fin (qz 3); Fin (qz 3)]; [Fin (qz 5); Fin (qz 5)]]) in
   np_cov y_pred = Matrix [[Fin (frac 35 12); Fin (frac 35 12)];
                           [Fin (frac 35 12); Fin (frac 35 12)]]
   /\ separability_score [0; 0; 1; 1]%Z y_pred = Ok (Fin (frac 14 3))).
Proof.
  split; [split|split].
  - reflexivity.
  - apply result_float_by_computation. vm_compute. reflexivity.
  - apply covariance_by_computation. vm_compute. reflexivity.
  - apply result_float_by_computation. vm_compute. reflexivity.
Qed.

(** Two classes and a single score column: the loop fails at the missing
    column, with the index error of [y_score[:, 1]]. *)
Example geometric_roc_auc_missing_column :
  geometric_roc_auc_score (backend := sklearn_backend)
    [0; 1]%Z (Array2 1 [[Fin (frac 1 10)]; [Fin (frac 8 10)]])
    None None true false
  = Raise (IndexError msg_index_axis1).
Proof. vm_compute. reflexivity. Qed.

(* ================================================================= *)
(** * Further properties of the code *)

(** ** relative_mean_absolute_error: shapes and broadcasting *)

(** X4. Shapes that do not fit are refused: true and predicted arrays of
    different lengths, neither of length one, cannot be broadcast; and
    weights must be as long as the samples. *)
Theorem rmae_shape_errors (y_true y_pred : vector) :
  (length y_true <> length y_pred ->
   length y_true <> 1%nat -> length y_pred <> 1%nat ->
   forall sample_weight,
     relative_mean_absolute_error y_true y_pred sample_weight
     = Raise (ValueError msg_broadcast))
  /\
  (length y_true = length y_pred ->
   forall w : vector,
     length w <> length y_true ->
     relative_mean_absolute_error y_true y_pred (Some w)
     = Raise (ValueError msg_weights_length)).
Proof.
  split.
  - intros Hne Ht Hp sample_weight.
    unfold relative_mean_absolute_error, relative_mean_absolute_error_diff,
      np_binop.
    destruct (Nat.eqb_spec (length y_pred) (length y_true)) as [E|_];
      [congruence|].
    destruct y_pred as [|p [|p' ps]], y_true as [|t [|t' ts]];
      simpl in *; congruence.
  - intros Hlen w Hw.
    unfold relative_mean_absolute_error.
    rewrite rmae_diff_same_length by trivial. cbn [bind].
    unfold np_average.
    rewrite length_map, length_combine, <- Hlen, Nat.min_id.
    destruct (Nat.eqb_spec (length y_true) (length w)) as [E|_];
      [congruence | reflexivity].
Qed.

Lemma rmae_shape_errors_witness :
  relative_mean_absolute_error
    [Fin (qz 1); Fin (qz 2); Fin (qz 3)] [Fin (qz 1); Fin (qz 2)] None
  = Raise (ValueError msg_broadcast)
  /\ relative_mean_absolute_error
       [Fin (qz 1); Fin (qz 2)] [Fin (qz 1); Fin (qz 2)]
       (Some [Fin (qz 1)])
     = Raise (ValueError msg_weights_length).
Proof.
  split.
  - apply (proj1 (rmae_shape_errors [Fin (qz 1); Fin (qz 2); Fin (qz 3)]
                    [Fin (qz 1); Fin (qz 2)])); simpl; lia.
  - apply (proj2 (rmae_shape_errors [Fin (qz 1); Fin (qz 2)]
                    [Fin (qz 1); Fin (qz 2)])); simpl; lia.
Defined.

Lemma combine_repeat_l (f : float -> float -> float) (p : float)
  (ys : vector) :
  map (fun pr => f (fst pr) (snd pr)) (combine (repeat p (length ys)) ys)
  = map (fun y => f p y) ys.
Proof.
  induction ys as [|y ys IH]; simpl; trivial. now rewrite IH.
Qed.

Lemma np_binop_single_l (f : float -> float -> float) (p : float)
  (ys : vector) :
  np_binop f [p] ys = Ok (map (fun y => f p y) ys).
Proof. destruct ys as [|y [|y' ys]]; reflexivity. Qed.

(** X5. A prediction array of length one is stretched over the true values:
    it gives what the same value repeated once per sample gives. *)
Theorem rmae_single_prediction_broadcasts
  (y_true : vector) (p : float) (sample_weight : option vector) :
  relative_mean_absolute_error y_true [p] sample_weight
  = relative_mean_absolute_error y_true (repeat p (length y_true))
      sample_weight.
Proof.
  unfold relative_mean_absolute_error, relative_mean_absolute_error_diff.
  rewrite (np_binop_same_length fsub (repeat p (length y_true)) y_true)
    by apply repeat_length.
  now rewrite combine_repeat_l, np_binop_single_l.
Qed.

Lemma Qcdiv_nonneg (a b : Qc) : (0 <= a)%Qc -> (0 < b)%Qc -> (0 <= a / b)%Qc.
Proof.
  intros Ha Hb. unfold Qcle, Qclt in *.
  change (this (a / b)%Qc) with (Qred (this a * Qred (/ this b))).
  rewrite !Qred_correct. change (this 0%Qc) with 0%Q in *.
  apply Qmult_le_0_compat; trivial.
  apply Qinv_le_0_compat. now apply Qlt_le_weak.
Qed.

(** ** g_score: the contingency matrix and the size check *)

Lemma skipn_nth_error {A : Type} (l : list A) (i : nat) (b : A) :
  nth_error l i = Some b -> skipn i l = b :: skipn (S i) l.
Proof.
  revert i. induction l as [|x l IH]; intros [|i] H; simpl in *;
    try discriminate.
  - now inversion H.
  - now apply IH.
Qed.

Lemma diagonal_from_general
  (f : label -> label -> float) (rows_of cols : list label) (i : nat) :
  diagonal_from i (map (fun a => map (f a) cols) rows_of)
  = map (fun p => f (fst p) (snd p)) (combine rows_of (skipn i cols)).
Proof.
  revert i. induction rows_of as [|a l IH]; intros i; simpl; trivial.
  rewrite nth_error_map.
  destruct (nth_error cols i) as [b|] eqn:E; simpl.
  - rewrite (skipn_nth_error _ _ E). simpl. f_equal. apply IH.
  - apply nth_error_None in E. now rewrite skipn_all2.
Qed.

Lemma qn_plus (a b : nat) : qn (a + b) = (qn a + qn b)%Qc.
Proof.
  induction a as [|a IH]; simpl.
  - rewrite qn_0. ring.
  - rewrite !qn_S, IH. ring.
Qed.

Lemma fold_fadd_counts (ns : list nat) (m : nat) :
  fold_left fadd (map (fun n => Fin (qn n)) ns) (Fin (qn m))
  = Fin (qn (m + list_sum ns)).
Proof.
  revert m. induction ns as [|n ns IH]; intros m; simpl.
  - now rewrite Nat.add_0_r.
  - rewrite <- qn_plus, IH. do 2 f_equal. lia.
Qed.

Lemma np_sum_counts (ns : list nat) :
  np_sum (map (fun n => Fin (qn n)) ns) = Fin (qn (list_sum ns)).
Proof.
  unfold np_sum. rewrite <- qn_0. now rewrite fold_fadd_counts.
Qed.

Lemma list_sum_indicator (y : label) (l : list label) :
  NoDup l -> In y l ->
  list_sum (map (fun b => if Z.eqb y b then 1 else 0)%nat l) = 1%nat.
Proof.
  induction 1 as [|b l Hb Hl IH]; simpl; [easy|].
  intros [->|Hin].
  - rewrite Z.eqb_refl. f_equal.
    clear IH Hl. induction l as [|c l IHl]; simpl; trivial.
    destruct (Z.eqb_spec y c) as [->|_].
    + elim Hb. now left.
    + apply IHl. intros H. apply Hb. now right.
  - destruct (Z.eqb_spec y b) as [->|_]; [contradiction|]. now apply IH.
Qed.

Lemma list_sum_zero (l : list label) :
  list_sum (map (fun _ => 0%nat) l) = 0%nat.
Proof. induction l; simpl; trivial. Qed.

Lemma list_sum_map_plus (u v : label -> nat) (l : list label) :
  list_sum (map (fun b => u b + v b)%nat l)
  = (list_sum (map u l) + list_sum (map v l))%nat.
Proof. induction l as [|b l IH]; simpl; [trivial | rewrite IH; lia]. Qed.

(** The counts of one row add up to the samples that carry the row's true
    label. *)
Lemma count_pair_row_total
  (a : label) (samples : list (label * label)) (clusters : list label) :
  NoDup clusters ->
  (forall p, In p samples -> In (snd p) clusters) ->
  list_sum (map (fun b => count_pair a b samples) clusters)
  = length (filter (fun p => Z.eqb (fst p) a) samples).
Proof.
  intros Hnd. induction samples as [|[x y] s IH]; intros Hin.
  - unfold count_pair. simpl. apply list_sum_zero.
  - assert (E : map (fun b => count_pair a b ((x, y) :: s)) clusters
                = map (fun b => (if Z.eqb x a && Z.eqb y b then 1 else 0)
                                + count_pair a b s)%nat clusters).
    { apply map_ext. intros b. unfold count_pair. simpl.
      now destruct (Z.eqb x a && Z.eqb y b). }
    rewrite E, list_sum_map_plus, IH by (intros p Hp; apply Hin; now right).
    simpl. destruct (Z.eqb x a); simpl.
    + rewrite list_sum_indicator; trivial.
      apply (Hin (x, y)). now left.
    + now rewrite list_sum_zero.
Qed.

Lemma filter_fst_combine (a : label) (y_true y_pred : list label) :
  length y_true = length y_pred ->
  length (filter (fun p => Z.eqb (fst p) a) (combine y_true y_pred))
  = class_size a y_true.
Proof.
  unfold class_size. revert y_pred.
  induction y_true as [|t ts IH]; intros [|p ps] H; simpl in *;
    try discriminate; trivial.
  destruct (Z.eqb t a); simpl; rewrite IH; trivial; lia.
Qed.

(** Diagonal and row sums of the contingency matrix, for labellings of
    equal length: the diagonal pairs the [i]-th true label with the [i]-th
    predicted label, and a row sums to the size of its class. *)
Lemma contingency_shape (y_true y_pred : list label) :
  length y_true = length y_pred ->
  exists c,
    contingency_matrix y_true y_pred None false = Ok c
    /\ length c = length (np_unique y_true)
    /\ diagonal c
       = map Fin (map (fun p => qn (count_pair (fst p) (snd p)
                                      (combine y_true y_pred)))
                      (combine (np_unique y_true) (np_unique y_pred)))
    /\ row_sums c
       = map Fin (map (fun a => qn (class_size a y_true))
                      (np_unique y_true)).
Proof.
  intros Hlen. eexists. split; [reflexivity|].
  split; [now rewrite length_map|]. split.
  - unfold diagonal.
    rewrite (diagonal_from_general
               (fun a b => Fin (qn (count_pair a b (combine y_true y_pred))))).
    now rewrite map_map.
  - unfold row_sums. rewrite !map_map. apply map_ext. intros a.
    rewrite <- (map_map (fun b => count_pair a b (combine y_true y_pred))
                        (fun n => Fin (qn n))).
    rewrite np_sum_counts, count_pair_row_total, filter_fst_combine; trivial.
    + apply np_unique_NoDup.
    + intros [x y] Hp. apply np_unique_In. simpl.
      eapply in_combine_r; eauto.
Qed.

Lemma Qcmult_nonneg (a b : Qc) : (0 <= a)%Qc -> (0 <= b)%Qc -> (0 <= a * b)%Qc.
Proof.
  intros Ha Hb. unfold Qcle in *.
  change (this (a * b)%Qc) with (Qred (this a * this b)).
  rewrite Qred_correct. change (this 0%Qc) with 0%Q in *.
  now apply Qmult_le_0_compat.
Qed.

Lemma Qcmult_le_one (a b : Qc) :
  (0 <= a)%Qc -> (a <= 1)%Qc -> (0 <= b)%Qc -> (b <= 1)%Qc ->
  (a * b <= 1)%Qc.
Proof.
  intros Ha Ha1 Hb Hb1. unfold Qcle in *.
  change (this (a * b)%Qc) with (Qred (this a * this b)).
  rewrite Qred_correct.
  change (this 0%Qc) with 0%Q in *. change (this 1%Qc) with 1%Q in *.
  setoid_replace 1%Q with (1 * 1)%Q by ring.
  apply Qmult_le_compat_nonneg; split; trivial.
Qed.

Lemma Qcdiv_le_one (a b : Qc) : (0 < b)%Qc -> (a <= b)%Qc -> (a / b <= 1)%Qc.
Proof.
  intros Hb Hab. unfold Qcle, Qclt in *.
  change (this (a / b)%Qc) with (Qred (this a * Qred (/ this b))).
  rewrite !Qred_correct.
  change (this 0%Qc) with 0%Q in *. change (this 1%Qc) with 1%Q.
  apply Qle_shift_div_r; trivial. now rewrite Qmult_1_l.
Qed.

Lemma qn_le (n m : nat) : (n <= m)%nat -> (qn n <= qn m)%Qc.
Proof.
  intros H. unfold Qcle, qn, qz, Q2Qc. cbn [this]. rewrite !Qred_correct.
  unfold Qle. simpl. lia.
Qed.

Lemma qprod_nonneg (l : list Qc) :
  Forall (fun q => (0 <= q)%Qc) l -> (0 <= qprod l)%Qc.
Proof.
  induction 1 as [|q l Hq Hl IH]; simpl.
  - discriminate.
  - now apply Qcmult_nonneg.
Qed.

Lemma Q2R_zero : Q2R 0%Qc = 0%R.
Proof. vm_compute this. unfold Q2R. simpl. lra. Qed.

Lemma Q2R_qn (n : nat) : Q2R (qn n) = INR n.
Proof.
  unfold qn, qz, Q2Qc. cbn [this].
  rewrite (Qeq_eqR _ _ (Qred_correct _)), INR_IZR_INZ.
  unfold Q2R, inject_Z. simpl. field.
Qed.

Lemma Q2R_inv_qn (n : nat) : (0 < n)%nat -> Q2R (/ qn n)%Qc = (/ INR n)%R.
Proof.
  intros Hn.
  change (this (/ qn n)%Qc) with (Qred (/ this (qn n))).
  rewrite (Qeq_eqR _ _ (Qred_correct _)), Q2R_inv, Q2R_qn; trivial.
  intros E. apply (Qlt_irrefl 0%Q).
  rewrite <- E at 2. exact (qn_pos Hn).
Qed.

Lemma Q2R_pos (q : Qc) : (0 < q)%Qc -> (0 < Q2R q)%R.
Proof.
  intros H. rewrite <- Q2R_zero. now apply Qlt_Rlt.
Qed.

Lemma Q2R_le_one (q : Qc) : (q <= 1)%Qc -> (Q2R q <= 1)%R.
Proof.
  intros H. rewrite <- Q2R_one. now apply Qle_Rle.
Qed.

(** The [n]-th power of [x ** (1.0 / n)] is [x], for a non-negative [x]. *)
Lemma float_pow_is_root (p : Qc) (n : nat) :
  (0 <= p)%Qc -> (0 < n)%nat ->
  exists g : R,
    float_pow (Fin p) (/ qn n)%Qc = Fin g
    /\ (0 <= g)%R /\ (g ^ n)%R = Q2R p.
Proof.
  intros Hp Hn. unfold float_pow.
  destruct (Qcle_lt_or_eq _ _ Hp) as [Hpos|<-].
  - rewrite (Qc_pos_compare Hpos).
    pose proof (Q2R_pos Hpos) as Hx.
    eexists. split; [reflexivity|]. split.
    + unfold Rpower. left. apply exp_pos.
    + rewrite <- Rpower_pow by (unfold Rpower; apply exp_pos).
      rewrite Rpower_mult, Q2R_inv_qn by trivial.
      rewrite Rinv_l by (apply not_0_INR; lia).
      now apply Rpower_1.
  - replace (0 ?= 0)%Qc with Eq by reflexivity.
    exists 0%R. split; [reflexivity|]. split; [lra|].
    rewrite Q2R_zero. now apply pow_i.
Qed.

Lemma contingency_sparse_same
  (y_true y_pred : list label) (sparse : bool) :
  contingency_matrix y_true y_pred None sparse
  = contingency_matrix y_true y_pred None false.
Proof. now destruct sparse. Qed.

Lemma class_sizes_positive (y : list label) :
  Forall (fun q => (0 < q)%Qc)
         (map (fun a => qn (class_size a y)) (np_unique y)).
Proof.
  apply Forall_forall. intros q Hq.
  apply in_map_iff in Hq as (a & <- & Ha).
  apply qn_pos, class_size_pos. now apply np_unique_In.
Qed.

Lemma counts_nonneg {A : Type} (f : A -> nat) (l : list A) :
  Forall (fun q => (0 <= q)%Qc) (map (fun x => qn (f x)) l).
Proof.
  apply Forall_forall. intros q Hq.
  apply in_map_iff in Hq as (a & <- & _). apply qn_nonneg.
Qed.

(** X8. The size check comes first: label arrays of different lengths give
    the size error, whatever [eps] and [sparse] are, also when both are
    set. *)
Theorem g_score_size_check_first
  (y_true y_pred : list label) (eps : option float) (sparse : bool) :
  length y_true <> length y_pred ->
  g_score y_true y_pred eps sparse = Raise (ValueError msg_same_size)
  /\ kind_of (ValueError msg_same_size) = ShapeError.
Proof.
  intros H. unfold g_score, check_clusterings.
  destruct (Nat.eqb_spec (length y_true) (length y_pred)); [contradiction|].
  split; reflexivity.
Qed.

Lemma g_score_size_check_first_witness :
  g_score [0; 1]%Z [0; 1; 1]%Z (Some (Fin 1%Qc)) true
  = Raise (ValueError msg_same_size)
  /\ kind_of (ValueError msg_same_size) = ShapeError.
Proof. apply g_score_size_check_first. simpl. lia. Defined.

(** ** geometric_roc_auc_score: the aggregate is a geometric mean *)


Lemma unit_numbers_are_rationals (l : vector) :
  Forall unit_number l ->
  exists qs : list Qc,
    l = map Fin qs
    /\ Forall (fun q => (0 <= q)%Qc) qs
    /\ (qprod qs <= 1)%Qc.
Proof.
  induction 1 as [|x l (q & -> & Hq0 & Hq1) Hl (qs & -> & Hqs & Hp)].
  - exists []. repeat split; [constructor | discriminate].
  - exists (q :: qs). repeat split; [now constructor|].
    simpl. apply Qcmult_le_one; trivial. now apply qprod_nonneg.
Qed.

Lemma classes_auc_from_length {backend : RocBackend}
  (truth : list vector) (y_score : array2) (i : nat)
  (pos_label : option label) (sample_weight : option vector)
  (drop_intermediate reorder : bool) (aucs : vector) :
  classes_auc_from i truth y_score pos_label sample_weight
    drop_intermediate reorder = Ok aucs ->
  length aucs = length truth.
Proof.
  revert i aucs. induction truth as [|t truth IH]; intros i aucs; simpl.
  - intros E. now inversion E.
  - destruct (class_auc _ _ _ _ _ _ _) as [a|e]; [|discriminate].
    cbn [bind].
    destruct (classes_auc_from _ _ _ _ _ _ _) as [l|e] eqn:El;
      [|discriminate].
    cbn [bind]. intros E. inversion E. simpl. f_equal. eapply IH; eauto.
Qed.

Lemma classes_auc_length {backend : RocBackend}
  (y_true : list label) (y_score : array2)
  (pos_label : option label) (sample_weight : option vector)
  (drop_intermediate reorder : bool) (aucs : vector) :
  classes_auc y_true y_score pos_label sample_weight drop_intermediate
    reorder = Ok aucs ->
  y_true <> [] /\ length aucs = length (np_unique y_true).
Proof.
  unfold classes_auc.
  destruct (one_hot y_true) as [truth|e] eqn:Ht; [|discriminate].
  cbn [bind]. intros E.
  apply one_hot_columns in Ht as [Hne Hlen]. split; trivial.
  rewrite <- Hlen. eapply classes_auc_from_length; eauto.
Qed.



(** X11. When every per-class AUC is a number between 0 and 1, so is the
    aggregate. *)
Theorem geometric_roc_auc_in_unit_interval {backend : RocBackend}
  (y_true : list label) (y_score : array2)
  (pos_label : option label) (sample_weight : option vector)
  (drop_intermediate reorder : bool) (aucs : vector) :
  classes_auc y_true y_score pos_label sample_weight drop_intermediate
    reorder = Ok aucs ->
  Forall unit_number aucs ->
  exists g : R,
    geometric_roc_auc_score y_true y_score pos_label sample_weight
      drop_intermediate reorder = Ok (Fin g)
    /\ (0 <= g <= 1)%R.
Proof.
  intros Hauc Hun.
  destruct (classes_auc_length _ _ _ _ _ _ Hauc) as [Hne Hlen].
  destruct (unit_numbers_are_rationals Hun) as (qs & -> & Hqs & Hp1).
  rewrite (geometric_score_of_aucs _ _ _ _ _ _ Hauc), np_prod_numbers.
  pose proof (np_unique_length_pos Hne) as Hpos.
  destruct (float_pow_is_root (p := qprod qs)
              (n := length (np_unique y_true))) as (g & Eg & Hg & Hpow);
    trivial.
  { now apply qprod_nonneg. }
  exists g. rewrite Eg. split; trivial. split; trivial.
  destruct (Rle_or_lt g 1) as [H|H]; trivial.
  pose proof (Rlt_pow_R1 g _ H Hpos) as Hgt.
  pose proof (Q2R_le_one Hp1). lra.
Qed.

Lemma geometric_roc_auc_in_unit_interval_witness :
  exists g : R,
    geometric_roc_auc_score (backend := sklearn_backend)
      [0; 1; 1; 0]%Z
      (Array2 2 [[Fin (frac 9 10); Fin (frac 1 10)];
                 [Fin (frac 2 10); Fin (frac 7 10)];
                 [Fin (frac 3 10); Fin (frac 8 10)];
                 [Fin (frac 1 10); Fin (frac 9 10)]])
      None None true false = Ok (Fin g)
    /\ (0 <= g <= 1)%R.
Proof.
  apply geometric_roc_auc_in_unit_interval
    with (aucs := [Fin (frac 1 2); Fin (frac 1 2)]).
  - apply result_vector_by_computation. vm_compute. reflexivity.
  - repeat constructor; exists (frac 1 2); repeat split; discriminate.
Defined.

(** ** separability_score: more labels than samples *)

Lemma take_only_index_error {A : Type} (l : list A) (idx : list nat) :
  (exists l', take l idx = Ok l')
  \/ take l idx = Raise (IndexError msg_index_axis0).
Proof.
  induction idx as [|i idx IH]; simpl.
  - left. now exists [].
  - destruct (nth_error l i) as [x|]; [|now right].
    destruct IH as [[l' ->] | ->]; [left | now right].
    now exists (x :: l').
Qed.

Lemma take_out_of_range {A : Type} (l : list A) (idx : list nat) (k : nat) :
  In k idx -> (length l <= k)%nat ->
  take l idx = Raise (IndexError msg_index_axis0).
Proof.
  intros Hin Hk. induction idx as [|i idx IH]; simpl; [easy|].
  destruct (nth_error l i) as [x|] eqn:E; trivial.
  destruct Hin as [->|Hin].
  - apply nth_error_None in Hk. congruence.
  - now rewrite IH.
Qed.

Lemma where_eq_from_In (i k : nat) (y : list label) (c : label) :
  nth_error y k = Some c -> In (i + k)%nat (where_eq_from i y c).
Proof.
  revert i k. induction y as [|l y IH]; intros i [|k] H; simpl in *;
    try discriminate.
  - inversion H; subst. rewrite Z.eqb_refl, Nat.add_0_r. now left.
  - replace (i + S k)%nat with (S i + k)%nat by lia.
    destruct (Z.eqb l c); [right|]; now apply IH.
Qed.

Lemma take_samples_only_index_error (y_pred : projections)
  (idx : list nat) :
  (exists part, take_samples y_pred idx = Ok part)
  \/ take_samples y_pred idx = Raise (IndexError msg_index_axis0).
Proof.
  destruct y_pred as [v|a]; simpl.
  - destruct (take_only_index_error v idx) as [[l' ->] | ->];
      [left; eexists; reflexivity | now right].
  - destruct (take_only_index_error (rows a) idx) as [[l' ->] | ->];
      [left; eexists; reflexivity | now right].
Qed.

Lemma take_samples_out_of_range (y_pred : projections)
  (idx : list nat) (k : nat) :
  In k idx -> (n_samples y_pred <= k)%nat ->
  take_samples y_pred idx = Raise (IndexError msg_index_axis0).
Proof.
  intros Hin Hk. destruct y_pred as [v|a]; simpl in *.
  - now rewrite (@take_out_of_range _ v idx k Hin Hk).
  - now rewrite (@take_out_of_range _ (rows a) idx k Hin Hk).
Qed.

Lemma class_covariances_out_of_range
  (y_true : list label) (y_pred : projections) (classes : list label)
  (c : label) (k : nat) :
  In c classes ->
  nth_error y_true k = Some c ->
  (n_samples y_pred <= k)%nat ->
  class_covariances y_true y_pred classes
  = Raise (IndexError msg_index_axis0).
Proof.
  intros Hc Hk Hn. induction classes as [|c' classes IH]; simpl; [easy|].
  destruct Hc as [->|Hc].
  - rewrite (@take_samples_out_of_range y_pred (np_where_eq y_true c) k);
      trivial.
    exact (@where_eq_from_In 0 k y_true c Hk).
  - rewrite IH by trivial.
    now destruct (take_samples_only_index_error y_pred
                    (np_where_eq y_true c')) as [[part ->] | ->].
Qed.

(** X12. More labels than samples: the selection of a class reaches past
    the end of the projections and the call fails with that index error. *)
Theorem separability_score_more_labels_than_samples
  (y_true : list label) (y_pred : projections) :
  (n_samples y_pred < length y_true)%nat ->
  separability_score y_true y_pred = Raise (IndexError msg_index_axis0).
Proof.
  intros H. unfold separability_score, _scatter_matrices.
  destruct (nth_error y_true (n_samples y_pred)) as [c|] eqn:E.
  - rewrite (@class_covariances_out_of_range y_true y_pred
               (np_unique y_true) c (n_samples y_pred)); trivial.
    apply np_unique_In. eapply nth_error_In; eauto.
  - apply nth_error_None in E. lia.
Qed.

Lemma separability_score_more_labels_than_samples_witness :
  separability_score [0; 0; 1; 1]%Z
    (Arr1 [Fin (qz 1); Fin (qz 2); Fin (qz 3)])
  = Raise (IndexError msg_index_axis0).
Proof.
  apply separability_score_more_labels_than_samples. simpl. lia.
Defined.

(** ** Labels count only through their order *)

Lemma order_preserving_compare (f : label -> label) (a b : label) :
  order_preserving f -> (f a ?= f b)%Z = (a ?= b)%Z.
Proof.
  intros Hf. destruct (Z.compare_spec a b) as [->|H|H].
  - apply Z.compare_refl.
  - apply Z.compare_lt_iff. now apply Hf.
  - apply Z.compare_gt_iff. now apply Hf.
Qed.

Lemma order_preserving_eqb (f : label -> label) (a b : label) :
  order_preserving f -> Z.eqb (f a) (f b) = Z.eqb a b.
Proof.
  intros Hf. pose proof (order_preserving_compare a b Hf) as H.
  destruct (Z.eqb_spec a b) as [->|N].
  - apply Z.eqb_refl.
  - apply Z.eqb_neq. intros E. apply N.
    apply Z.compare_eq. rewrite <- H, E. apply Z.compare_refl.
Qed.

Lemma insert_label_map (f : label -> label) (x : label) (l : list label) :
  order_preserving f ->
  insert_label (f x) (map f l) = map f (insert_label x l).
Proof.
  intros Hf. induction l as [|y l IH]; simpl; trivial.
  rewrite order_preserving_compare by trivial.
  destruct (x ?= y)%Z; simpl; trivial. now rewrite IH.
Qed.

Lemma np_unique_map (f : label -> label) (y : list label) :
  order_preserving f -> np_unique (map f y) = map f (np_unique y).
Proof.
  intros Hf. induction y as [|x y IH]; simpl; trivial.
  now rewrite IH, insert_label_map.
Qed.

Lemma count_pair_map (f h : label -> label) (a b : label)
  (y_true y_pred : list label) :
  order_preserving f -> order_preserving h ->
  count_pair (f a) (h b) (combine (map f y_true) (map h y_pred))
  = count_pair a b (combine y_true y_pred).
Proof.
  intros Hf Hh. unfold count_pair. revert y_pred.
  induction y_true as [|t ts IH]; intros [|p ps]; simpl; trivial.
  rewrite !order_preserving_eqb by trivial.
  destruct (Z.eqb t a && Z.eqb p b); simpl; now rewrite IH.
Qed.

Lemma contingency_matrix_map (f h : label -> label)
  (y_true y_pred : list label) (eps : option float) (sparse : bool) :
  order_preserving f -> order_preserving h ->
  contingency_matrix (map f y_true) (map h y_pred) eps sparse
  = contingency_matrix y_true y_pred eps sparse.
Proof.
  intros Hf Hh. unfold contingency_matrix.
  rewrite !np_unique_map by trivial.
  assert (E : map (fun a => map (fun b =>
                Fin (qn (count_pair a b
                           (combine (map f y_true) (map h y_pred)))))
                (map h (np_unique y_pred))) (map f (np_unique y_true))
              = map (fun a => map (fun b =>
                  Fin (qn (count_pair a b (combine y_true y_pred))))
                  (np_unique y_pred)) (np_unique y_true)).
  { rewrite map_map. apply map_ext. intros a.
    rewrite map_map. apply map_ext. intros b.
    now rewrite count_pair_map. }
  now rewrite E.
Qed.

(** X14. The labels count only through their order: relabelling the true
    and the predicted classes, each by its own order-preserving map,
    changes neither the score nor the error. *)
Theorem g_score_relabel_invariant (f h : label -> label)
  (y_true y_pred : list label) (eps : option float) (sparse : bool) :
  order_preserving f -> order_preserving h ->
  g_score (map f y_true) (map h y_pred) eps sparse
  = g_score y_true y_pred eps sparse.
Proof.
  intros Hf Hh. unfold g_score, check_clusterings.
  rewrite !length_map.
  destruct (Nat.eqb (length y_true) (length y_pred)); cbn [bind]; trivial.
  now rewrite contingency_matrix_map.
Qed.

Lemma g_score_relabel_invariant_witness :
  g_score (map (fun z => 2 * z + 1)%Z [0; 0; 1; 2]%Z)
          (map (fun z => z - 5)%Z [1; 0; 1; 1]%Z) None false
  = g_score [0; 0; 1; 2]%Z [1; 0; 1; 1]%Z None false.
Proof.
  apply g_score_relabel_invariant; intros a b H; lia.
Defined.

Lemma where_eq_from_map (f : label -> label) (i : nat) (y : list label)
  (c : label) :
  order_preserving f ->
  where_eq_from i (map f y) (f c) = where_eq_from i y c.
Proof.
  intros Hf. revert i. induction y as [|l y IH]; intros i; simpl; trivial.
  rewrite order_preserving_eqb, !IH by trivial. reflexivity.
Qed.

Lemma class_covariances_map (f : label -> label)
  (y_true : list label) (y_pred : projections) (classes : list label) :
  order_preserving f ->
  class_covariances (map f y_true) y_pred (map f classes)
  = class_covariances y_true y_pred classes.
Proof.
  intros Hf. induction classes as [|c classes IH]; simpl; trivial.
  unfold np_where_eq. now rewrite where_eq_from_map, IH.
Qed.

(** X15. The class labels are only names for the separability score:
    relabelling the classes by an order-preserving map changes nothing. *)
Theorem separability_score_relabel_invariant (f : label -> label)
  (y_true : list label) (y_pred : projections) :
  order_preserving f ->
  separability_score (map f y_true) y_pred
  = separability_score y_true y_pred.
Proof.
  intros Hf. unfold separability_score, _scatter_matrices.
  now rewrite np_unique_map, class_covariances_map.
Qed.

Lemma separability_score_relabel_invariant_witness :
  separability_score (map (fun z => 3 * z - 1)%Z [0; 0; 1; 1]%Z)
    (Arr1 [Fin (qz 1); Fin (qz 2); Fin (qz 3); Fin (qz 5)])
  = separability_score [0; 0; 1; 1]%Z
      (Arr1 [Fin (qz 1); Fin (qz 2); Fin (qz 3); Fin (qz 5)]).
Proof.
  apply separability_score_relabel_invariant. intros a b H. lia.
Defined.


(** ** relative_mean_absolute_error: weights do not hide a zero *)

Lemma fmul_not_finite_l (x y : float) :
  is_finite x = false -> is_finite (fmul x y) = false.
Proof.
  destruct x, y; simpl; try congruence; intros _;
    now destruct (a ?= 0)%Qc.
Qed.

(** X18. Weights do not hide a zero true value: its quotient is an
    infinity or nan, the product with any weight (zero included, since
    [inf * 0] is nan) is not finite either, and whenever the weighted call
    returns, the value is not finite. *)
Theorem rmae_zero_true_value_under_weights
  (y_true y_pred w : vector) (v : float) :
  length y_true = length y_pred ->
  In (Fin 0%Qc) y_true ->
  relative_mean_absolute_error y_true y_pred (Some w) = Ok v ->
  is_finite v = false.
Proof.
  intros Hlen Hin. unfold relative_mean_absolute_error.
  rewrite rmae_diff_same_length by trivial. cbn [bind].
  set (diff := map _ (combine y_true y_pred)).
  unfold np_average.
  destruct (Nat.eqb_spec (length diff) (length w)) as [Hw|]; [|discriminate].
  cbn [negb]. destruct (feq0 (np_sum w)); [discriminate|].
  cbn [bind]. intros E. inversion E. apply fdiv_not_finite_l.
  destruct (in_combine_pair _ y_true y_pred Hlen Hin) as [p Hp].
  assert (Hd : In (relative_deviation (Fin 0%Qc) p) diff).
  { unfold diff. apply in_map_iff. now exists (Fin 0%Qc, p). }
  destruct (in_combine_pair _ diff w Hw Hd) as [wi Hwi].
  apply np_sum_not_finite
    with (x := fmul (relative_deviation (Fin 0%Qc) p) wi).
  - apply in_map_iff. now exists (relative_deviation (Fin 0%Qc) p, wi).
  - apply fmul_not_finite_l, relative_deviation_zero_true.
Qed.

Lemma rmae_zero_true_value_under_weights_witness :
  is_finite (NaN : float) = false.
Proof.
  apply (@rmae_zero_true_value_under_weights
           [Fin 0%Qc; Fin (qz 2)] [Fin (qz 1); Fin (qz 2)]
           [Fin 0%Qc; Fin (qz 1)] NaN).
  - reflexivity.
  - left. reflexivity.
  - apply result_float_by_computation. vm_compute. reflexivity.
Defined.

(* ================================================================= *)
(** * The program in float64 *)

(** ** Rounding to binary64 *)

Lemma pow2_pos (e : Z) : (0 < 2 ^ e)%Q.
Proof. apply Qpower_0_lt. reflexivity. Qed.

Lemma pow2_plus (a b : Z) : (2 ^ (a + b) == 2 ^ a * 2 ^ b)%Q.
Proof. apply Qpower_plus. discriminate. Qed.

Lemma pow2_Z (k : Z) : (0 <= k)%Z -> (inject_Z (2 ^ k) == 2 ^ k)%Q.
Proof. intros H. exact (Zpower_Qpower 2 k H). Qed.

Lemma pow2_le (a b : Z) : (a <= b)%Z -> (2 ^ a <= 2 ^ b)%Q.
Proof. intros H. apply Qpower_le_compat_l; [trivial | discriminate]. Qed.

Lemma pow2_le_inv (a b : Z) : (2 ^ a <= 2 ^ b)%Q -> (a <= b)%Z.
Proof. intros H. eapply Qpower_le_compat_l_inv; [exact H | reflexivity]. Qed.

Lemma log2_bounds (a : positive) :
  (2 ^ Z.log2 (Zpos a) <= inject_Z (Zpos a))%Q
  /\ (inject_Z (Zpos a) < 2 ^ (Z.log2 (Zpos a) + 1))%Q.
Proof.
  destruct (Z.log2_spec (Zpos a)) as [H1 H2]; [lia|].
  pose proof (Z.log2_nonneg (Zpos a)) as H0.
  split.
  - rewrite <- pow2_Z by trivial. now rewrite <- Zle_Qle.
  - rewrite <- pow2_Z by lia. rewrite <- Zlt_Qlt. exact H2.
Qed.

(** [ilog2] is the exponent of the binade of a positive rational. *)
Lemma ilog2_spec (q : Q) :
  (0 < q)%Q -> (2 ^ ilog2 q <= q)%Q /\ (q < 2 ^ (ilog2 q + 1))%Q.
Proof.
  intros Hq. destruct q as [n d].
  assert (Hn : (0 < n)%Z) by (unfold Qlt in Hq; simpl in Hq; lia).
  destruct n as [|n|n]; try lia. clear Hn.
  unfold ilog2. cbn [Qnum Qden].
  set (la := Z.log2 (Zpos n)). set (ld := Z.log2 (Zpos d)).
  destruct (log2_bounds n) as [Hn1 Hn2]. fold la in Hn1, Hn2.
  destruct (log2_bounds d) as [Hd1 Hd2]. fold ld in Hd1, Hd2.
  assert (HD : (0 < inject_Z (Zpos d))%Q) by reflexivity.
  assert (Hmul : (Zpos n # d) * inject_Z (Zpos d) == inject_Z (Zpos n)).
  { rewrite Qmake_Qdiv. field. discriminate. }
  set (q := Zpos n # d) in *.
  destruct (Qle_bool (2 ^ (la - ld)) q) eqn:Ht.
  - apply Qle_bool_iff in Ht. split; trivial.
    destruct (Qlt_le_dec q (2 ^ (la - ld + 1))) as [|Hc]; trivial.
    exfalso.
    assert (E : 2 ^ (la - ld + 1) * 2 ^ ld == 2 ^ (la + 1)).
    { rewrite <- pow2_plus. now replace (la - ld + 1 + ld)%Z with (la + 1)%Z by lia. }
    pose proof (pow2_pos (la - ld + 1)). pose proof (pow2_pos ld).
    Lqa.nra.
  - assert (Hlt : q < 2 ^ (la - ld)).
    { destruct (Qlt_le_dec q (2 ^ (la - ld))) as [|Hc]; trivial.
      apply Qle_bool_iff in Hc. congruence. }
    replace (la - ld - 1 + 1)%Z with (la - ld)%Z by lia.
    split; trivial.
    destruct (Qlt_le_dec q (2 ^ (la - ld - 1))) as [Hc|]; trivial.
    exfalso.
    assert (E : 2 ^ (la - ld - 1) * 2 ^ (ld + 1) == 2 ^ la).
    { rewrite <- pow2_plus. now replace (la - ld - 1 + (ld + 1))%Z with la by lia. }
    pose proof (pow2_pos (la - ld - 1)). pose proof (pow2_pos (ld + 1)).
    Lqa.nra.
Qed.


Lemma nearest_even_nonneg (x : Q) : (0 <= x)%Q -> (0 <= nearest_even x)%Z.
Proof.
  intros H. unfold Qle in H. cbn in H.
  assert (Hn : (0 <= Qnum x)%Z) by lia.
  unfold nearest_even.
  assert (Hq : (0 <= Qnum x / QDen x)%Z) by (apply Z.div_pos; lia).
  destruct (2 * (Qnum x mod QDen x) ?= QDen x)%Z;
    [destruct (Z.even _)| |]; lia.
Qed.

Lemma nearest_even_le (x : Q) (K : Z) :
  (x <= inject_Z K)%Q -> (nearest_even x <= K)%Z.
Proof.
  intros H. unfold Qle in H. cbn [inject_Z Qnum Qden] in H.
  rewrite Z.mul_1_r in H.
  set (n := Qnum x) in *. set (d := QDen x) in *.
  assert (Hd : (0 < d)%Z) by (unfold d; lia).
  pose proof (Z.div_mod n d ltac:(lia)) as Hdm.
  pose proof (Z.mod_pos_bound n d Hd) as Hm.
  unfold nearest_even. fold n d.
  assert (Hq : (n / d <= K)%Z) by nia.
  assert (Hq' : (n / d = K -> n mod d = 0)%Z) by nia.
  destruct (2 * (n mod d) ?= d)%Z eqn:C.
  - apply Z.compare_eq in C.
    destruct (Z.even (n / d)); [lia|].
    destruct (Z.eq_dec (n / d) K) as [E|]; [|lia].
    specialize (Hq' E). lia.
  - lia.
  - apply Z.compare_gt_iff in C.
    destruct (Z.eq_dec (n / d) K) as [E|]; [|lia].
    specialize (Hq' E). lia.
Qed.

Lemma round_pos_nonneg (q : Q) : (0 <= q)%Q -> nonneg_or_inf (round_pos q).
Proof.
  intros Hq. unfold round_pos. destruct (Qle_bool _ _); [now left|].
  right. eexists. split; [reflexivity|].
  unfold Qcle, Q2Qc. cbn [this]. rewrite !Qred_correct.
  apply Qmult_le_0_compat.
  - rewrite <- (Zle_Qle 0). apply nearest_even_nonneg.
    apply Qle_shift_div_l; [apply pow2_pos|].
    now rewrite Qmult_0_l.
  - apply Qlt_le_weak, pow2_pos.
Qed.


Lemma significand_bounds (q : Q) :
  (0 < q)%Q -> (0 <= significand q <= 2 ^ 53)%Z.
Proof.
  intros Hq. destruct (ilog2_spec Hq) as [_ Hhi].
  pose proof (pow2_pos (last_place q)) as Hp.
  unfold significand. split.
  - apply nearest_even_nonneg. apply Qle_shift_div_l; trivial.
    rewrite Qmult_0_l. now apply Qlt_le_weak.
  - apply nearest_even_le. rewrite pow2_Z by lia.
    apply Qle_shift_div_r; trivial.
    rewrite <- pow2_plus. apply Qlt_le_weak.
    apply Qlt_le_trans with (1 := Hhi). apply pow2_le.
    unfold last_place. lia.
Qed.



Lemma this_positive (q : Qc) :
  (0 < this q)%Q -> exists a, Qnum (this q) = Zpos a.
Proof.
  unfold Qlt. cbn. intros H.
  destruct (Qnum (this q)) as [|a|a]; try lia. now exists a.
Qed.










Lemma round64_nonneg (q : Qc) : (0 <= q)%Qc -> nonneg_or_inf (round64 q).
Proof.
  intros H. unfold round64.
  assert (Hq : (0 <= this q)%Q) by exact H.
  destruct (this q) as [n d]. cbn [Qnum].
  destruct n as [|n|n].
  - right. exists 0%Qc. split; [reflexivity | apply Qcle_refl].
  - now apply round_pos_nonneg.
  - unfold Qle in Hq. cbn in Hq. lia.
Qed.

Lemma round_pos_not_nan (q : Q) : is_nan (round_pos q) = false.
Proof. unfold round_pos. now destruct (Qle_bool _ _). Qed.

Lemma round64_not_nan (q : Qc) : is_nan (round64 q) = false.
Proof.
  unfold round64. destruct (Qnum (this q)); trivial.
  - apply round_pos_not_nan.
  - pose proof (round_pos_not_nan (- this q)) as H.
    now destruct (round_pos (- this q)).
Qed.

Lemma round64_0 : round64 0%Qc = Fin 0%Qc.
Proof. reflexivity. Qed.

Lemma rnd_not_finite (x : float) :
  is_finite x = false -> is_finite (rnd x) = false.
Proof. now destruct x. Qed.

Lemma rnd_nonneg (x : float) : nonneg_or_inf x -> nonneg_or_inf (rnd x).
Proof.
  intros [->|(q & -> & Hq)]; [now left|]. now apply round64_nonneg.
Qed.

Lemma add64_not_finite_l (x y : float) :
  is_finite x = false -> is_finite (add64 x y) = false.
Proof. intros H. now apply rnd_not_finite, fadd_not_finite_l. Qed.

Lemma add64_not_finite_r (x y : float) :
  is_finite y = false -> is_finite (add64 x y) = false.
Proof. intros H. now apply rnd_not_finite, fadd_not_finite_r. Qed.

Lemma div64_not_finite_l (x y : float) :
  is_finite x = false -> is_finite (div64 x y) = false.
Proof. intros H. now apply rnd_not_finite, fdiv_not_finite_l. Qed.

Lemma Qcplus_nonneg' (a b : Qc) : (0 <= a)%Qc -> (0 <= b)%Qc -> (0 <= a + b)%Qc.
Proof.
  unfold Qcle, Qcplus, Q2Qc. cbn [this]. rewrite !Qred_correct.
  intros Ha Hb. change 0%Q with (0 + 0)%Q. now apply Qplus_le_compat.
Qed.

Lemma add64_nonneg (x y : float) :
  nonneg_or_inf x -> nonneg_or_inf y -> nonneg_or_inf (add64 x y).
Proof.
  intros Hx Hy. apply rnd_nonneg.
  destruct Hx as [->|(a & -> & Ha)], Hy as [->|(b & -> & Hb)];
    try (now left).
  right. exists (a + b)%Qc. split; [reflexivity|].
  now apply Qcplus_nonneg'.
Qed.

(** ** Sums *)

Lemma fold_add64_sums (a l0 : vector) (acc : float) :
  sums_to l0 acc -> sums_to (l0 ++ a) (fold_left add64 a acc).
Proof.
  revert l0 acc. induction a as [|x a IH]; intros l0 acc H; simpl.
  - now rewrite app_nil_r.
  - replace (l0 ++ x :: a) with ((l0 ++ [x]) ++ a)
      by now rewrite <- app_assoc.
    apply IH. apply sums_add; [trivial | constructor].
Qed.

Lemma add_lanes_sums (ls : list vector) (r c : vector) :
  Forall2 sums_to ls r ->
  Forall2 sums_to (snoc_lanes ls c) (Binary64.add_lanes r c).
Proof.
  intros H. revert c.
  induction H as [|l x ls r Hl Hr IH]; intros c; simpl; [constructor|].
  destruct c as [|y c]; constructor; trivial.
  apply sums_add; [trivial | constructor].
Qed.

Lemma snoc_lanes_concat (ls : list vector) (c : vector) :
  (length c <= length ls)%nat ->
  Permutation (concat (snoc_lanes ls c)) (concat ls ++ c).
Proof.
  revert c. induction ls as [|l ls IH]; intros c H; simpl in *.
  - destruct c; [reflexivity | simpl in H; lia].
  - destruct c as [|y c]; simpl.
    + now rewrite !app_nil_r.
    + rewrite <- !app_assoc. apply Permutation_app_head.
      cbn [app]. rewrite (IH c) by (simpl in H; lia).
      apply Permutation_middle.
Qed.

Lemma snoc_lanes_length (ls : list vector) (c : vector) :
  length (snoc_lanes ls c) = length ls.
Proof.
  revert c. induction ls as [|l ls IH]; intros [|y c]; simpl; trivial.
  now rewrite IH.
Qed.

Lemma unrolled_sums (k : nat) (ls : list vector) (r a : vector) :
  Forall2 sums_to ls r ->
  (8 <= length ls)%nat ->
  exists ls' r' rest,
    Binary64.unrolled k r a = (r', rest)
    /\ Forall2 sums_to ls' r'
    /\ length ls' = length ls
    /\ Permutation (concat ls' ++ rest) (concat ls ++ a).
Proof.
  revert ls r a. induction k as [|k IH]; intros ls r a H Hlen; simpl.
  - exists ls, r, a. repeat split; trivial.
  - destruct (IH (snoc_lanes ls (firstn 8 a)) (Binary64.add_lanes r (firstn 8 a))
                (skipn 8 a)) as (ls' & r' & rest & E & Hs & Hl & Hp).
    + now apply add_lanes_sums.
    + now rewrite snoc_lanes_length.
    + exists ls', r', rest. repeat split; trivial.
      * now rewrite Hl, snoc_lanes_length.
      * rewrite Hp, snoc_lanes_concat.
        -- now rewrite <- app_assoc, firstn_skipn.
        -- rewrite length_firstn. lia.
Qed.

Lemma block_sum_sums (a : vector) :
  (8 <= length a)%nat -> sums_to a (Binary64.block_sum a).
Proof.
  intros Hlen. unfold Binary64.block_sum.
  destruct (@unrolled_sums (length a / 8 - 1)
              (map (fun x => [x]) (firstn 8 a)) (firstn 8 a) (skipn 8 a))
    as (ls & r & rest & E & Hs & Hl & Hp).
  - clear. induction (firstn 8 a); simpl; constructor; trivial. constructor.
  - rewrite length_map, length_firstn. lia.
  - rewrite E.
    rewrite length_map, length_firstn, Nat.min_l in Hl by trivial.
    assert (Hr : length r = 8%nat).
    { rewrite <- Hl. symmetry. eapply Forall2_length; eauto. }
    assert (Hc : concat (map (fun x : float => [x]) (firstn 8 a)) = firstn 8 a).
    { clear. induction (firstn 8 a); simpl; trivial. now f_equal. }
    rewrite Hc, firstn_skipn in Hp.
    apply sums_perm with (l := concat ls ++ rest); trivial.
    apply fold_add64_sums.
    destruct ls as [|L0 [|L1 [|L2 [|L3 [|L4 [|L5 [|L6 [|L7 [|? ?]]]]]]]]];
      try discriminate Hl.
    destruct r as [|r0 [|r1 [|r2 [|r3 [|r4 [|r5 [|r6 [|r7 [|? ?]]]]]]]]];
      try discriminate Hr.
    repeat match goal with
           | H : Forall2 _ (_ :: _) (_ :: _) |- _ =>
               inversion H; subst; clear H
           end.
    cbn [concat nth]. rewrite app_nil_r.
    replace (L0 ++ L1 ++ L2 ++ L3 ++ L4 ++ L5 ++ L6 ++ L7)
      with (((L0 ++ L1) ++ (L2 ++ L3)) ++ ((L4 ++ L5) ++ (L6 ++ L7)))
      by now rewrite <- !app_assoc.
    repeat apply sums_add; trivial.
Qed.

Lemma pairwise_sum_sums (fuel : nat) (a : vector) :
  sums_to a (Binary64.pairwise_sum fuel a).
Proof.
  revert a. induction fuel as [|fuel IH]; intros a; simpl.
  - destruct (Nat.ltb_spec (length a) 8).
    + apply (@fold_add64_sums a [] (Fin 0%Qc)). constructor.
    + destruct (length a <=? 128)%nat; apply block_sum_sums; lia.
  - destruct (Nat.ltb_spec (length a) 8).
    + apply (@fold_add64_sums a [] (Fin 0%Qc)). constructor.
    + destruct (length a <=? 128)%nat; [apply block_sum_sums; lia|].
      rewrite <- (firstn_skipn (length a / 2 - (length a / 2) mod 8) a) at 1.
      apply sums_add; apply IH.
Qed.

Lemma np_sum_sums (a : vector) : sums_to a (Binary64.np_sum a).
Proof.
  unfold Binary64.np_sum.
  apply (@sums_add [] a); [constructor | apply pairwise_sum_sums].
Qed.

Lemma sums_to_closed (P : float -> Prop) (l : vector) (v : float) :
  P (Fin 0%Qc) ->
  (forall x y, P x -> P y -> P (add64 x y)) ->
  sums_to l v -> Forall P l -> P v.
Proof.
  intros H0 Hadd Hs. induction Hs as [|x|l1 l2 v1 v2 _ IH1 _ IH2|l l' v Hp _ IH];
    intros Hl; trivial.
  - now inversion Hl.
  - apply Forall_app in Hl as [H1 H2]. auto.
  - apply IH. eapply Permutation_Forall; [|exact Hl]. now symmetry.
Qed.

Lemma sums_to_not_finite (l : vector) (v x : float) :
  sums_to l v -> In x l -> is_finite x = false -> is_finite v = false.
Proof.
  intros Hs Hin Hx. induction Hs as [|y|l1 l2 v1 v2 _ IH1 _ IH2|l l' v Hp _ IH].
  - easy.
  - destruct Hin as [->|[]]. trivial.
  - apply in_app_or in Hin as [H|H].
    + apply add64_not_finite_l. auto.
    + apply add64_not_finite_r. auto.
  - apply IH. eapply Permutation_in; [|exact Hin]. now symmetry.
Qed.

(** ** relative_mean_absolute_error in float64 *)

Lemma fabs_nonneg_or_inf (x : float) :
  is_nan x = false -> nonneg_or_inf (fabs x).
Proof.
  destruct x as [q| | |]; simpl; intros H; try discriminate;
    try (now left).
  right. exists (Qcabs q). split; [reflexivity | apply Qcabs_nonneg].
Qed.

Lemma div64_nonneg (x : float) (b : Qc) :
  nonneg_or_inf x -> (0 < b)%Qc -> nonneg_or_inf (div64 x (Fin b)).
Proof.
  intros Hx Hb. apply rnd_nonneg.
  destruct Hx as [->|(a & -> & Ha)].
  - left. simpl. now rewrite (Qc_pos_compare Hb).
  - right. exists (a / b)%Qc. split.
    + apply fdiv_numbers. now apply Qc_pos_neq.
    + now apply Qcdiv_nonneg.
Qed.

Lemma Qcabs_pos_nonzero (q : Qc) : q <> 0%Qc -> (0 < Qcabs q)%Qc.
Proof.
  intros H. destruct (Qcle_lt_or_eq _ _ (Qcabs_nonneg q)) as [Hlt|E];
    trivial.
  elim H. apply Qcabs_null. now symmetry.
Qed.

Lemma deviations64_zip (y_true y_pred : vector) :
  length y_true = length y_pred ->
  map (fun p => div64 (fst p) (snd p))
      (combine
         (np_abs (map (fun p => sub64 (fst p) (snd p)) (combine y_pred y_true)))
         (np_abs y_true))
  = map (fun tp => Binary64.relative_deviation (fst tp) (snd tp))
        (combine y_true y_pred).
Proof.
  revert y_pred.
  induction y_true as [|t ts IH]; intros [|p ps] H; simpl in *;
    try discriminate; trivial.
  f_equal. apply IH. lia.
Qed.

Lemma rmae64_diff_same_length (y_true y_pred : vector) :
  length y_true = length y_pred ->
  Binary64.relative_mean_absolute_error_diff y_true y_pred
  = Ok (map (fun tp => Binary64.relative_deviation (fst tp) (snd tp))
            (combine y_true y_pred)).
Proof.
  intros H. unfold Binary64.relative_mean_absolute_error_diff.
  rewrite np_binop_same_length by now symmetry.
  cbn [bind].
  rewrite np_binop_same_length.
  - now rewrite deviations64_zip.
  - unfold np_abs. rewrite !length_map, length_combine. lia.
Qed.

Lemma deviation64_zero_true (p : float) :
  is_finite (Binary64.relative_deviation (Fin 0%Qc) p) = false.
Proof.
  unfold Binary64.relative_deviation, div64. cbn [fabs]. rewrite Qcabs_0.
  apply rnd_not_finite, fdiv_by_zero_not_finite.
Qed.

Lemma rnd_not_nan (x : float) : is_nan x = false -> is_nan (rnd x) = false.
Proof. destruct x; simpl; trivial. intros _. apply round64_not_nan. Qed.

Lemma deviation64_nonneg (t p : float) :
  nonzero_number t -> number p ->
  nonneg_or_inf (Binary64.relative_deviation t p).
Proof.
  intros (q & -> & Hq) Hp. destruct p as [a| | |]; try discriminate Hp.
  unfold Binary64.relative_deviation. cbn [fabs].
  apply div64_nonneg.
  - apply fabs_nonneg_or_inf. unfold sub64. now apply rnd_not_nan.
  - now apply Qcabs_pos_nonzero.
Qed.

Lemma deviations64_nonneg (y_true y_pred : vector) :
  Forall nonzero_number y_true -> Forall number y_pred ->
  Forall nonneg_or_inf
    (map (fun tp => Binary64.relative_deviation (fst tp) (snd tp))
         (combine y_true y_pred)).
Proof.
  intros Ht. revert y_pred.
  induction Ht as [|t ts Ht Hts IH]; intros y_pred Hp; simpl.
  - constructor.
  - destruct Hp as [|p ps Hp Hps]; simpl; constructor.
    + now apply deviation64_nonneg.
    + now apply IH.
Qed.

Lemma nonneg_or_inf_zero : nonneg_or_inf (Fin 0%Qc).
Proof. right. exists 0%Qc. split; [reflexivity | apply Qcle_refl]. Qed.

Lemma np_sum64_nonneg (l : vector) :
  Forall nonneg_or_inf l -> nonneg_or_inf (Binary64.np_sum l).
Proof.
  apply sums_to_closed with (P := nonneg_or_inf).
  - exact nonneg_or_inf_zero.
  - exact add64_nonneg.
  - apply np_sum_sums.
Qed.

Lemma np_sum64_not_finite (l : vector) (x : float) :
  In x l -> is_finite x = false -> is_finite (Binary64.np_sum l) = false.
Proof. apply sums_to_not_finite, np_sum_sums. Qed.

Lemma mul64_not_finite_l (x y : float) :
  is_finite x = false -> is_finite (mul64 x y) = false.
Proof. intros H. now apply rnd_not_finite, fmul_not_finite_l. Qed.

(** C8, as the code has it, in float64.  A zero entry of [y_true] raises
    nothing: the unweighted call returns, and what it returns is not finite
    (an infinity or nan); under weights the call may raise for the weights,
    and whatever it returns is not finite.  When every entry of [y_true] is
    a non-zero number and [y_pred] holds numbers, no quotient is nan: each
    is a number that is not negative, or [+inf] where the subtraction or
    the division overflows; and so is the result for non-empty arrays. *)
Theorem rmae_zero_true_value_not_finite :
  (forall y_true y_pred : vector,
      length y_true = length y_pred ->
      In (Fin 0%Qc) y_true ->
      (exists v,
          Binary64.relative_mean_absolute_error y_true y_pred None = Ok v
          /\ is_finite v = false)
      /\ (forall w v,
             Binary64.relative_mean_absolute_error y_true y_pred (Some w)
             = Ok v ->
             is_finite v = false))
  /\
  (forall y_true y_pred : vector,
      length y_true = length y_pred ->
      Forall nonzero_number y_true ->
      Forall number y_pred ->
      exists diff,
        Binary64.relative_mean_absolute_error_diff y_true y_pred = Ok diff
        /\ Forall nonneg_or_inf diff
        /\ (y_true <> [] ->
            exists v,
              Binary64.relative_mean_absolute_error y_true y_pred None = Ok v
              /\ nonneg_or_inf v)).
Proof.
  split.
  - intros y_true y_pred Hlen Hin.
    unfold Binary64.relative_mean_absolute_error.
    rewrite rmae64_diff_same_length by trivial. cbn [bind].
    set (diff := map _ (combine y_true y_pred)).
    destruct (in_combine_pair _ y_true y_pred Hlen Hin) as [p Hp].
    assert (Hd : In (Binary64.relative_deviation (Fin 0%Qc) p) diff).
    { unfold diff. apply in_map_iff. now exists (Fin 0%Qc, p). }
    pose proof (deviation64_zero_true p) as Hnf.
    split.
    + eexists. split; [reflexivity|].
      unfold Binary64.np_mean. apply div64_not_finite_l.
      now apply np_sum64_not_finite with (x := Binary64.relative_deviation (Fin 0%Qc) p).
    + intros w v. unfold Binary64.np_average.
      destruct (Nat.eqb_spec (length diff) (length w)) as [Hw|];
        [|discriminate].
      cbn [negb]. destruct (feq0 (Binary64.np_sum w)); [discriminate|].
      cbn [bind]. intros E. inversion E. apply div64_not_finite_l.
      destruct (in_combine_pair _ diff w Hw Hd) as [wi Hwi].
      apply np_sum64_not_finite
        with (x := mul64 (Binary64.relative_deviation (Fin 0%Qc) p) wi).
      * apply in_map_iff.
        now exists (Binary64.relative_deviation (Fin 0%Qc) p, wi).
      * now apply mul64_not_finite_l.
  - intros y_true y_pred Hlen Ht Hp.
    pose proof (deviations64_nonneg Ht Hp) as Hd.
    eexists. split; [now apply rmae64_diff_same_length|].
    split; trivial.
    intros Hne. unfold Binary64.relative_mean_absolute_error.
    rewrite rmae64_diff_same_length by trivial. cbn [bind].
    eexists. split; [reflexivity|].
    unfold Binary64.np_mean. apply div64_nonneg.
    + now apply np_sum64_nonneg.
    + apply qn_pos. rewrite length_map, length_combine, <- Hlen, Nat.min_id.
      destruct y_true; [congruence | simpl; lia].
Qed.

Lemma qz_2_nonzero : qz 2 <> 0%Qc.
Proof. intros E. apply (f_equal this) in E. vm_compute in E. discriminate E. Qed.

Lemma rmae_zero_true_value_not_finite_witness :
  (exists v,
      Binary64.relative_mean_absolute_error
        [Fin 0%Qc; Fin (qz 2)] [Fin (qz 1); Fin (qz 2)] None = Ok v
      /\ is_finite v = false)
  /\
  (exists diff,
      Binary64.relative_mean_absolute_error_diff
        [Fin (qz 2); Fin (qz 2)] [Fin (qz 1); Fin (qz 2)] = Ok diff
      /\ Forall nonneg_or_inf diff
      /\ ([Fin (qz 2); Fin (qz 2)] <> [] ->
          exists v,
            Binary64.relative_mean_absolute_error
              [Fin (qz 2); Fin (qz 2)] [Fin (qz 1); Fin (qz 2)] None = Ok v
            /\ nonneg_or_inf v)).
Proof.
  split.
  - apply (proj1 rmae_zero_true_value_not_finite).
    + reflexivity.
    + left. reflexivity.
  - apply (proj2 rmae_zero_true_value_not_finite).
    + reflexivity.
    + repeat constructor; exists (qz 2); split;
        solve [reflexivity | exact qz_2_nonzero].
    + repeat constructor.
Defined.

(** C8 as stated fails in its second half: [y_true = [2^-600]] is not
    zero and [y_pred = [2^600]] is a number, both are float64 values, and
    the quotient [|2^600 - 2^-600| / 2^-600] overflows: the division
    produces [+inf] and the call returns it. *)
Lemma rmae_overflow_without_zero :
  let t := Fin (pow2 (-600)) in
  let p := Fin (pow2 600) in
  nonzero_number t /\ number p /\ rnd t = t /\ rnd p = p
  /\ Binary64.relative_mean_absolute_error_diff [t] [p] = Ok [PInf]
  /\ Binary64.relative_mean_absolute_error [t] [p] None = Ok PInf.
Proof.
  intros t p. split; [|split; [|split; [|split; [|split]]]].
  - exists (pow2 (-600)). split; [reflexivity|].
    intros E. apply (f_equal this) in E. vm_compute in E. discriminate E.
  - reflexivity.
  - apply float_eqb_eq. vm_compute. reflexivity.
  - apply float_eqb_eq. vm_compute. reflexivity.
  - apply result_vector_by_computation. vm_compute. reflexivity.
  - apply result_float_by_computation. vm_compute. reflexivity.
Qed.

Lemma add64_zeros : add64 (Fin 0%Qc) (Fin 0%Qc) = Fin 0%Qc.
Proof. apply float_eqb_eq. vm_compute. reflexivity. Qed.

Lemma np_sum64_zeros (l : vector) :
  Forall (fun x => x = Fin 0%Qc) l -> Binary64.np_sum l = Fin 0%Qc.
Proof.
  apply sums_to_closed with (P := fun x => x = Fin 0%Qc).
  - reflexivity.
  - intros x y -> ->. exact add64_zeros.
  - apply np_sum_sums.
Qed.

Lemma feq0_zero : feq0 (Fin 0%Qc) = true.
Proof. unfold feq0. now destruct (Qc_eq_dec 0 0). Qed.

(** C10, as the code has it, in float64.  The sum that counts is the one
    [np.sum] computes: when it is [0.0] the call raises and returns
    nothing, and with weights as long as the samples the error is the
    [ZeroDivisionError] of the averaging step.  Weights that are all zero
    sum to [0.0]. *)
Theorem rmae_zero_weight_sum_raises
  (y_true y_pred sample_weight : vector) :
  length y_true = length y_pred ->
  (feq0 (Binary64.np_sum sample_weight) = true ->
   raises (Binary64.relative_mean_absolute_error y_true y_pred
             (Some sample_weight))
   /\ (length sample_weight = length y_true ->
       Binary64.relative_mean_absolute_error y_true y_pred
         (Some sample_weight)
       = Raise (ZeroDivisionError msg_weights_zero)))
  /\ (Forall (fun x => x = Fin 0%Qc) sample_weight ->
      feq0 (Binary64.np_sum sample_weight) = true).
Proof.
  intros Hlen. split.
  - intros Hsum.
    unfold Binary64.relative_mean_absolute_error, raises.
    rewrite rmae64_diff_same_length by trivial. cbn [bind].
    unfold Binary64.np_average. rewrite Hsum.
    rewrite length_map, length_combine, <- Hlen, Nat.min_id.
    split.
    + destruct (negb _); eexists; reflexivity.
    + intros ->. now rewrite Nat.eqb_refl.
  - intros Hz. rewrite np_sum64_zeros by trivial. exact feq0_zero.
Qed.

Lemma rmae_zero_weight_sum_raises_witness :
  Binary64.relative_mean_absolute_error
    [Fin (qz 2); Fin (qz 4)] [Fin (qz 1); Fin (qz 5)]
    (Some [Fin 0%Qc; Fin 0%Qc])
  = Raise (ZeroDivisionError msg_weights_zero).
Proof.
  destruct (@rmae_zero_weight_sum_raises
              [Fin (qz 2); Fin (qz 4)] [Fin (qz 1); Fin (qz 5)]
              [Fin 0%Qc; Fin 0%Qc] eq_refl) as [H1 H2].
  apply H1; [|reflexivity].
  apply H2. repeat constructor.
Defined.

(** C10 as stated fails for weights whose entries sum to zero while their
    float64 sum does not: [2^53 + 1] rounds to [2^53], so the weights
    [2^53, 1, -2^53, -1] add up to [-1.0], and the call returns. *)
Lemma rmae_zero_weight_sum_returns :
  let w := [Fin (qz (2 ^ 53)); Fin (qz 1); Fin (qz (- 2 ^ 53)); Fin (qz (-1))] in
  let y_true := [Fin (qz 1); Fin (qz 1); Fin (qz 1); Fin (qz 1)] in
  let y_pred := [Fin (qz 1); Fin (qz 2); Fin (qz 1); Fin (qz 2)] in
  map rnd w = w
  /\ np_sum w = Fin 0%Qc
  /\ Binary64.np_sum w = Fin (qz (-1))
  /\ Binary64.relative_mean_absolute_error y_true y_pred (Some w)
     = Ok (Fin 0%Qc).
Proof.
  intros w y_true y_pred. split; [|split; [|split]].
  - apply vector_eqb_eq. vm_compute. reflexivity.
  - apply float_eqb_eq. vm_compute. reflexivity.
  - apply float_eqb_eq. vm_compute. reflexivity.
  - apply result_float_by_computation. vm_compute. reflexivity.
Qed.








(** It fails on empty arrays as well: the empty weight vector has all its
    entries equal to any positive number, the weighted call raises (the
    weights sum to zero) and the unweighted call returns nan. *)
Lemma rmae_equal_weights_empty :
  Binary64.relative_mean_absolute_error [] [] (Some [])
  = Raise (ZeroDivisionError msg_weights_zero)
  /\ Binary64.relative_mean_absolute_error [] [] None = Ok NaN.
Proof. split; reflexivity. Qed.

(** ** g_score in float64 *)

Lemma ln_below (x : R) : (0 < x)%R -> x <> 1%R -> (ln x < x - 1)%R.
Proof.
  intros Hx Hne.
  assert (Hl : ln x <> 0%R).
  { intros E. apply Hne. rewrite <- (exp_ln x Hx), E. apply exp_0. }
  pose proof (exp_ineq1 (ln x) Hl) as H. rewrite exp_ln in H by trivial.
  lra.
Qed.

(** A power of a number below one, between two rational bounds. *)
Lemma Rpower_below_one (P Y : R) :
  (0 < P < 1)%R -> (0 < Y)%R ->
  (1 - Y * (1 - P) / P < Rpower P Y < / (1 + Y * (1 - P)))%R.
Proof.
  intros [HP0 HP1] HY. unfold Rpower. split.
  - assert (Hinv : (ln P > 1 - / P)%R).
    { pose proof (Rinv_0_lt_compat P HP0) as Hi.
      assert (Hne : (/ P <> 1)%R).
      { intros E. apply (f_equal Rinv) in E.
        rewrite Rinv_inv, Rinv_1 in E. lra. }
      pose proof (ln_below Hi Hne) as H.
      rewrite ln_Rinv in H by trivial. lra. }
    apply Rlt_le_trans with (1 + Y * ln P)%R; [|apply exp_ineq1_le].
    assert (H : (Y * (1 - / P) < Y * ln P)%R)
      by (apply Rmult_lt_compat_l; lra).
    replace (Y * (1 - P) / P)%R with (- (Y * (1 - / P)))%R
      by (field; lra).
    lra.
  - assert (Hln : (ln P < P - 1)%R) by (apply ln_below; lra).
    set (t := (Y * (1 - P))%R).
    assert (Ht : (0 < t)%R) by (unfold t; apply Rmult_lt_0_compat; lra).
    assert (H : (Y * ln P < - t)%R).
    { unfold t. assert (Y * ln P < Y * (P - 1))%R
        by (apply Rmult_lt_compat_l; lra). lra. }
    apply Rlt_trans with (exp (- t)); [now apply exp_increasing|].
    rewrite exp_Ropp.
    apply Rinv_lt_contravar.
    + apply Rmult_lt_0_compat; [lra | apply exp_pos].
    + apply exp_ineq1. lra.
Qed.

(** C6 at the class sizes 3, 4 and 7.  The labelling is scored against
    itself.  Each true rate is [n / n = 1.0] and the score of the
    documentation is exactly 1.  The code divides the column of the
    diagonal by the row of the class sizes; the table holds the rounded
    quotients [3/4], [3/7], [4/3], [4/7], [7/3], [7/4], and its float64
    product is [1 - 2^-52].  The root of that product lies between
    [1 - 3 * 2^-54] and [1 - 2^-54], nearest to the float
    [1 - 2^-53 = 0.9999999999999999], and not to [1.0]. *)
Theorem g_score_perfect_rounds :
  let y := (repeat 0 3 ++ repeat 1 4 ++ repeat 2 7)%Z in
  exists (c : matrix) (r : R),
    Binary64.contingency_matrix y y None false = Ok c
    /\ Binary64.per_class_true_rates None c
       = [Fin 1%Qc; Fin 1%Qc; Fin 1%Qc]
    /\ Binary64.geometric_mean_of_true_rates None c = Ok (Fin 1%R)
    /\ Binary64.np_prod2 (Binary64.true_rates None c)
       = Fin (frac 4503599627370495 4503599627370496)
    /\ Binary64.g_score y y None false = Ok (Fin r)
    /\ (1 - 3 / 2 ^ 54 < r < 1 - 1 / 2 ^ 54)%R.
Proof.
  intros y.
  pose (c := map (fun a => map (fun b =>
                Fin (qn (count_pair a b (combine y y))))
                (np_unique y)) (np_unique y) : matrix).
  set (P := frac 4503599627370495 4503599627370496).
  set (Y := frac 6004799503160661 18014398509481984).
  assert (Hexp : Binary64.py_one_over (length c) = Ok (Fin Y)).
  { apply result_float_by_computation. vm_compute. reflexivity. }
  assert (Hrates : Binary64.per_class_true_rates None c
                   = [Fin 1%Qc; Fin 1%Qc; Fin 1%Qc]).
  { apply vector_eqb_eq. vm_compute. reflexivity. }
  assert (Hprod : Binary64.np_prod2 (Binary64.true_rates None c) = Fin P).
  { apply float_eqb_eq. vm_compute. reflexivity. }
  exists c, (Rpower (Q2R P) (Q2R Y)). split; [reflexivity|].
  split; [exact Hrates|]. split; [|split; [exact Hprod|split]].
  - unfold Binary64.geometric_mean_of_true_rates.
    rewrite Hexp, Hrates. cbn [bind].
    replace (Binary64.np_prod [Fin 1%Qc; Fin 1%Qc; Fin 1%Qc])
      with (Fin 1%Qc : float)
      by (symmetry; apply float_eqb_eq; vm_compute; reflexivity).
    cbn [Binary64.float_pow]. now rewrite float_pow_one.
  - unfold Binary64.g_score.
    change (check_clusterings y y) with (Ok (y, y)). cbn [bind].
    change (Binary64.contingency_matrix y y None false) with (Ok c).
    cbn [bind]. rewrite Hexp, Hprod. cbn [bind Binary64.float_pow].
    unfold float_pow.
    replace (P ?= 0)%Qc with Gt by reflexivity. reflexivity.
  - unfold P, Y. rewrite !Q2R_frac.
    match goal with
    | |- (_ < Rpower ?p ?e < _)%R =>
        pose proof (@Rpower_below_one p e) as H
    end.
    destruct H as [Hlo Hhi]; [lra | lra |].
    split.
    + eapply Rlt_trans; [|exact Hlo]. lra.
    + eapply Rlt_trans; [exact Hhi|].
      apply Rmult_lt_reg_l
        with (r := (1 + IZR 6004799503160661 / IZR 18014398509481984
                        * (1 - IZR 4503599627370495 / IZR 4503599627370496))%R);
        [lra|].
      rewrite Rinv_r by lra. lra.
Qed.

(** ** Further properties in float64 *)

Lemma round64_unit (q : Qc) :
  (0 < q)%Qc -> (q <= 1)%Qc -> exists r : Qc, round64 q = Fin r.
Proof.
  intros Hpos Hle.
  assert (Hq : (0 < this q)%Q) by exact Hpos.
  assert (Hq1 : (this q <= 1)%Q) by exact Hle.
  destruct (this_positive q Hq) as [a Ha].
  unfold round64. rewrite Ha. unfold round_pos.
  destruct (Qle_bool _ _) eqn:Hov; [|eexists; reflexivity].
  exfalso. apply Qle_bool_iff in Hov.
  destruct (ilog2_spec Hq) as [Hlo _].
  assert (HE : (ilog2 (this q) <= 0)%Z).
  { apply pow2_le_inv. apply Qle_trans with (this q); trivial. }
  destruct (significand_bounds Hq) as [_ HM].
  assert (Hv : (inject_Z (significand (this q)) * 2 ^ last_place (this q)
                <= 2 ^ 53 * 2 ^ (-52))%Q).
  { apply Qle_trans with (2 ^ 53 * 2 ^ last_place (this q))%Q.
    - apply Qmult_le_compat_r; [|apply Qlt_le_weak, pow2_pos].
      rewrite <- pow2_Z by lia. now rewrite <- Zle_Qle.
    - apply Qmult_le_l; [apply pow2_pos|].
      apply pow2_le. unfold last_place. lia. }
  assert (Hc : (2 ^ 1024 <= 2 ^ 53 * 2 ^ (-52))%Q)
    by (eapply Qle_trans; eauto).
  vm_compute in Hc. now apply Hc.
Qed.

Lemma Qcdiv_pos (a b : Qc) : (0 < a)%Qc -> (0 < b)%Qc -> (0 < a / b)%Qc.
Proof.
  unfold Qclt, Qcdiv, Qcmult, Qcinv, Q2Qc. cbn [this].
  rewrite !Qred_correct. intros Ha Hb.
  apply Qmult_lt_0_compat; trivial. now apply Qinv_lt_0_compat.
Qed.

Lemma py_one_over64_pos (n : nat) :
  (0 < n)%nat -> exists y : Qc, Binary64.py_one_over n = Ok (Fin y).
Proof.
  intros Hn. destruct n as [|n]; [lia|]. cbn [Binary64.py_one_over].
  assert (Hp : (0 < qn (S n))%Qc) by (apply qn_pos; lia).
  unfold div64. rewrite fdiv_numbers by now apply Qc_pos_neq.
  cbn [rnd].
  destruct (@round64_unit (1 / qn (S n))%Qc) as [y Hy].
  - now apply Qcdiv_pos.
  - apply Qcdiv_le_one; trivial.
    replace 1%Qc with (qn 1) by (rewrite qn_S, qn_0; ring).
    apply qn_le. lia.
  - exists y. now rewrite Hy.
Qed.

Lemma deviation64_self (t : float) :
  nonzero_number t -> Binary64.relative_deviation t t = Fin 0%Qc.
Proof.
  intros (q & -> & Hq). unfold Binary64.relative_deviation, sub64, div64.
  cbn [fsub fneg fadd rnd].
  replace (q + - q)%Qc with 0%Qc by ring.
  rewrite round64_0. cbn [fabs]. rewrite Qcabs_0.
  rewrite fdiv_numbers by (intros E; apply Hq; now apply Qcabs_null).
  cbn [rnd]. replace (0 / Qcabs q)%Qc with 0%Qc; [reflexivity|].
  unfold Qcdiv. ring.
Qed.

Lemma deviations64_self (y : vector) :
  Forall nonzero_number y ->
  Forall (fun x => x = Fin 0%Qc)
    (map (fun tp => Binary64.relative_deviation (fst tp) (snd tp))
         (combine y y)).
Proof.
  induction 1 as [|t y Ht _ IH]; simpl; constructor; trivial.
  now apply deviation64_self.
Qed.

Lemma weighted_zeros64 (a wgt : vector) :
  Forall (fun x => x = Fin 0%Qc) a -> Forall number wgt ->
  Forall (fun x => x = Fin 0%Qc)
    (map (fun p => mul64 (fst p) (snd p)) (combine a wgt)).
Proof.
  intros Ha. revert wgt.
  induction Ha as [|x a -> _ IH]; intros wgt Hw; simpl; [constructor|].
  destruct Hw as [|w wgt Hw Hws]; simpl; constructor.
  - destruct w as [q| | |]; try discriminate Hw.
    unfold mul64. cbn [fmul rnd].
    replace (0 * q)%Qc with 0%Qc by ring. reflexivity.
  - now apply IH.
Qed.

Lemma div64_zero (s : float) :
  feq0 s = false -> is_nan s = false -> div64 (Fin 0%Qc) s = Fin 0%Qc.
Proof.
  intros Hz Hn. unfold div64. destruct s as [q| | |]; try discriminate Hn;
    try reflexivity.
  unfold feq0 in Hz. destruct (Qc_eq_dec q 0) as [|Hq]; [discriminate|].
  rewrite fdiv_numbers by trivial. cbn [rnd].
  replace (0 / q)%Qc with 0%Qc; [reflexivity|]. unfold Qcdiv. ring.
Qed.

(** X2. A non-empty float64 array of non-zero numbers scored against
    itself gives exactly [0.0]: every difference, every quotient and their
    sum are [0.0].  The same holds under finite weights whose float64 sum
    is neither [0.0] nor nan. *)
Theorem rmae_of_equal_arrays (y : vector) :
  y <> [] ->
  Forall nonzero_number y ->
  Binary64.relative_mean_absolute_error y y None = Ok (Fin 0%Qc)
  /\ (forall w : vector,
         length w = length y -> Forall number w ->
         feq0 (Binary64.np_sum w) = false ->
         is_nan (Binary64.np_sum w) = false ->
         Binary64.relative_mean_absolute_error y y (Some w)
         = Ok (Fin 0%Qc)).
Proof.
  intros Hne Hy. unfold Binary64.relative_mean_absolute_error.
  rewrite rmae64_diff_same_length by trivial. cbn [bind].
  pose proof (deviations64_self Hy) as Hd.
  set (diff := map _ (combine y y)) in *.
  assert (Hlen : length diff = length y).
  { unfold diff. rewrite length_map, length_combine. lia. }
  split.
  - unfold Binary64.np_average, Binary64.np_mean.
    rewrite np_sum64_zeros by trivial. rewrite div64_zero; trivial.
    unfold feq0. destruct (Qc_eq_dec (qn (length diff)) 0) as [E|]; trivial.
    exfalso. revert E. apply Qc_pos_neq, qn_pos. rewrite Hlen.
    destruct y; [congruence | simpl; lia].
  - intros w Hw Hnum Hz Hnan. unfold Binary64.np_average.
    rewrite Hlen, Hw, Nat.eqb_refl. cbn [negb]. rewrite Hz.
    rewrite np_sum64_zeros by now apply weighted_zeros64.
    now rewrite div64_zero.
Qed.

Lemma rmae_of_equal_arrays_witness :
  Binary64.relative_mean_absolute_error
    [Fin (qz 2); Fin (qz 2)] [Fin (qz 2); Fin (qz 2)] None
  = Ok (Fin 0%Qc).
Proof.
  apply (@rmae_of_equal_arrays [Fin (qz 2); Fin (qz 2)]).
  - discriminate.
  - repeat constructor; exists (qz 2); split;
      solve [reflexivity | exact qz_2_nonzero].
Defined.

Lemma mul64_ones : mul64 (Fin 1%Qc) (Fin 1%Qc) = Fin 1%Qc.
Proof. apply float_eqb_eq. vm_compute. reflexivity. Qed.

Lemma np_prod64_ones (l : vector) :
  Forall (fun x => x = Fin 1%Qc) l -> Binary64.np_prod l = Fin 1%Qc.
Proof.
  unfold Binary64.np_prod. induction 1 as [|x l -> _ IH]; simpl; trivial.
  now rewrite mul64_ones.
Qed.

Lemma div64_self (q : Qc) : q <> 0%Qc -> div64 (Fin q) (Fin q) = Fin 1%Qc.
Proof.
  intros Hq. unfold div64. rewrite fdiv_numbers by trivial. cbn [rnd].
  replace (q / q)%Qc with 1%Qc by (field; trivial).
  apply float_eqb_eq. vm_compute. reflexivity.
Qed.

Lemma table_of_ones (q : Qc) (col row : vector) :
  q <> 0%Qc ->
  Forall (fun x => x = Fin q) col -> Forall (fun x => x = Fin q) row ->
  Forall (fun x => x = Fin 1%Qc)
    (concat (Binary64.column_over_row col row)).
Proof.
  intros Hq Hc Hr. apply Forall_concat.
  apply Forall_forall. intros r Hin.
  apply in_map_iff in Hin as (d & <- & Hd).
  apply Forall_forall. intros x Hx.
  apply in_map_iff in Hx as (s & <- & Hs).
  rewrite Forall_forall in Hc, Hr.
  rewrite (Hc d Hd), (Hr s Hs). now apply div64_self.
Qed.

(** X19. With classes of one and the same size, a non-empty labelling
    scored against itself gives exactly [1.0] in float64: every quotient
    of the table is [n / n]. *)
Theorem g_score_perfect_equal_sizes (y : list label) (n : nat) :
  y <> [] ->
  (forall a, In a y -> class_size a y = n) ->
  Binary64.g_score y y None false = Ok (Fin 1%R).
Proof.
  intros Hne Hsize.
  destruct (contingency_self y) as (c & Hc & Hlen & Hd & Hr).
  unfold Binary64.g_score, check_clusterings. rewrite Nat.eqb_refl.
  cbn [bind Binary64.contingency_matrix]. rewrite Hc. cbn [bind].
  destruct (@py_one_over64_pos (length c)) as [e He].
  { rewrite Hlen. now apply np_unique_length_pos. }
  rewrite He. cbn [bind Binary64.float_pow].
  unfold Binary64.np_prod2, Binary64.true_rates. cbn [Binary64.row_sums].
  rewrite Hd, Hr.
  assert (Hall : Forall (fun x : float => x = Fin (qn n))
                   (map Fin (map (fun a => qn (class_size a y))
                                 (np_unique y)))).
  { apply Forall_forall. intros x Hx. rewrite map_map in Hx.
    apply in_map_iff in Hx as (a & <- & Ha).
    now rewrite Hsize by now apply np_unique_In. }
  assert (Hn : qn n <> 0%Qc).
  { apply Qc_pos_neq, qn_pos. destruct y as [|a y]; [congruence|].
    rewrite <- (Hsize a (or_introl eq_refl)). apply class_size_pos.
    now left. }
  rewrite np_prod64_ones by now apply table_of_ones with (q := qn n).
  now rewrite float_pow_one.
Qed.

Lemma g_score_perfect_equal_sizes_witness :
  Binary64.g_score [0; 0; 1; 1]%Z [0; 0; 1; 1]%Z None false = Ok (Fin 1%R).
Proof.
  apply g_score_perfect_equal_sizes with (n := 2%nat).
  - discriminate.
  - intros a [<-|[<-|[<-|[<-|[]]]]]; reflexivity.
Defined.

Lemma mul64_by_zero (x : float) :
  mul64 x (Fin 0%Qc) = Fin 0%Qc \/ mul64 x (Fin 0%Qc) = NaN.
Proof.
  unfold mul64. destruct x as [q| | |]; cbn [fmul fmul_inf rnd].
  - left. replace (q * 0)%Qc with 0%Qc by ring. reflexivity.
  - right. reflexivity.
  - right. reflexivity.
  - now right.
Qed.

Lemma mul64_zero_or_nan (x y : float) :
  x = Fin 0%Qc \/ x = NaN -> nonneg_or_inf y ->
  mul64 x y = Fin 0%Qc \/ mul64 x y = NaN.
Proof.
  intros [->| ->] Hy; [|now right].
  destruct Hy as [->|(q & -> & _)]; unfold mul64; cbn [fmul fmul_inf rnd].
  - now right.
  - left. replace (0 * q)%Qc with 0%Qc by ring. reflexivity.
Qed.

Lemma fold_mul64_zero_or_nan (l : vector) (acc : float) :
  acc = Fin 0%Qc \/ acc = NaN -> Forall nonneg_or_inf l ->
  fold_left mul64 l acc = Fin 0%Qc \/ fold_left mul64 l acc = NaN.
Proof.
  intros Ha Hl. revert acc Ha.
  induction Hl as [|y l Hy _ IH]; intros acc Ha; simpl; trivial.
  apply IH. now apply mul64_zero_or_nan.
Qed.

Lemma np_prod64_zero_factor (l : vector) :
  Forall nonneg_or_inf l -> In (Fin 0%Qc) l ->
  Binary64.np_prod l = Fin 0%Qc \/ Binary64.np_prod l = NaN.
Proof.
  unfold Binary64.np_prod. generalize (Fin 1%Qc : float).
  intros acc Hl. revert acc.
  induction Hl as [|y l Hy Hl IH]; intros acc Hin; simpl in *; [easy|].
  destruct Hin as [->|Hin].
  - apply fold_mul64_zero_or_nan; trivial. apply mul64_by_zero.
  - now apply IH.
Qed.

Lemma quotient_table_nonneg (ds rs : list Qc) :
  Forall (fun q => (0 <= q)%Qc) ds -> Forall (fun q => (0 < q)%Qc) rs ->
  Forall nonneg_or_inf
    (concat (Binary64.column_over_row (map Fin ds) (map Fin rs))).
Proof.
  intros Hd Hr. apply Forall_concat.
  apply Forall_forall. intros r Hin.
  apply in_map_iff in Hin as (d & <- & Hdin).
  apply in_map_iff in Hdin as (dq & <- & Hdq).
  apply Forall_forall. intros x Hx.
  apply in_map_iff in Hx as (s & <- & Hs).
  apply in_map_iff in Hs as (sq & <- & Hsq).
  rewrite Forall_forall in Hd, Hr.
  apply div64_nonneg; [|auto].
  right. exists dq. split; [reflexivity | auto].
Qed.

Lemma quotient_table_zero (ds rs : list Qc) :
  In 0%Qc ds -> rs <> [] -> Forall (fun q => (0 < q)%Qc) rs ->
  In (Fin 0%Qc)
     (concat (Binary64.column_over_row (map Fin ds) (map Fin rs))).
Proof.
  intros Hd Hne Hr. destruct rs as [|s rs]; [congruence|].
  apply in_concat. exists (map (fun r => div64 (Fin 0%Qc) r) (map Fin (s :: rs))).
  split.
  - unfold Binary64.column_over_row. apply in_map_iff.
    exists (Fin 0%Qc). split; [reflexivity|]. apply in_map_iff. now exists 0%Qc.
  - cbn [map]. left. inversion Hr as [|? ? Hs _]; subst.
    unfold div64. rewrite fdiv_numbers by now apply Qc_pos_neq.
    cbn [rnd]. replace (0 / s)%Qc with 0%Qc; [reflexivity|].
    unfold Qcdiv. ring.
Qed.

(** X17. Without smoothing, a zero on the diagonal of the contingency
    matrix (the [i]-th true label never predicted as the [i]-th predicted
    label) makes the score of non-empty labellings of equal length [0.0];
    or nan, when the quotients multiplied before the zero have overflowed
    to [+inf]. *)
Theorem g_score_zero_diagonal
  (y_true y_pred : list label) (sparse : bool) (a b : label) :
  length y_true = length y_pred ->
  y_true <> [] ->
  In (a, b) (combine (np_unique y_true) (np_unique y_pred)) ->
  count_pair a b (combine y_true y_pred) = 0%nat ->
  Binary64.g_score y_true y_pred None sparse = Ok (Fin 0%R)
  \/ Binary64.g_score y_true y_pred None sparse = Ok NaN.
Proof.
  intros Hlen Hne Hin Hzero.
  destruct (contingency_shape y_true y_pred Hlen) as (c & Hc & Hl & Hd & Hr).
  unfold Binary64.g_score, check_clusterings. rewrite Hlen, Nat.eqb_refl.
  cbn [bind Binary64.contingency_matrix].
  rewrite contingency_sparse_same, Hc. cbn [bind].
  destruct (@py_one_over64_pos (length c)) as [e He].
  { rewrite Hl. now apply np_unique_length_pos. }
  rewrite He. cbn [bind Binary64.float_pow].
  unfold Binary64.np_prod2, Binary64.true_rates. cbn [Binary64.row_sums].
  rewrite Hd, Hr.
  set (ds := map _ (combine (np_unique y_true) (np_unique y_pred))).
  set (rs := map _ (np_unique y_true)).
  destruct (@np_prod64_zero_factor
              (concat (Binary64.column_over_row (map Fin ds) (map Fin rs))))
    as [-> | ->].
  - apply quotient_table_nonneg.
    + apply counts_nonneg
        with (f := fun p : label * label =>
                     count_pair (fst p) (snd p) (combine y_true y_pred)).
    + apply class_sizes_positive.
  - apply quotient_table_zero.
    + unfold ds. apply in_map_iff. exists (a, b). split; trivial.
      cbn [fst snd]. now rewrite Hzero, qn_0.
    + unfold rs. pose proof (np_unique_nonempty Hne).
      destruct (np_unique y_true); [congruence | discriminate].
    + apply class_sizes_positive.
  - left. now rewrite float_pow_zero.
  - right. reflexivity.
Qed.

Lemma g_score_zero_diagonal_witness :
  Binary64.g_score [0; 0; 1; 1]%Z [1; 1; 0; 1]%Z None false = Ok (Fin 0%R)
  \/ Binary64.g_score [0; 0; 1; 1]%Z [1; 1; 0; 1]%Z None false = Ok NaN.
Proof.
  apply g_score_zero_diagonal with (a := 0%Z) (b := 0%Z).
  - reflexivity.
  - discriminate.
  - left. reflexivity.
  - reflexivity.
Defined.

(** At the labels [0 (64 times), 1, ..., 171] against [0 (65 times),
    1 (170 times)] the diagonal is [64, 0] and the first row of the table,
    64 once and then 171 times [64 / 1], overflows before the zeros of the
    second row are reached: the result is nan. *)
Example g_score_zero_diagonal_overflow :
  let y_true := (repeat 0 64 ++ map Z.of_nat (seq 1 171))%Z in
  let y_pred := (repeat 0 65 ++ repeat 1 170)%Z in
  count_pair 1%Z 1%Z (combine y_true y_pred) = 0%nat
  /\ Binary64.g_score y_true y_pred None false = Ok NaN.
Proof.
  intros y_true y_pred. split; [vm_compute; reflexivity|].
  pose (c := map (fun a => map (fun b =>
                Fin (qn (count_pair a b (combine y_true y_pred))))
                (np_unique y_pred)) (np_unique y_true) : matrix).
  destruct (@py_one_over64_pos (length c)) as [e Hexp].
  { vm_compute. lia. }
  assert (Hprod : Binary64.np_prod2 (Binary64.true_rates None c) = NaN).
  { apply float_eqb_eq. vm_compute. reflexivity. }
  unfold Binary64.g_score.
  replace (check_clusterings y_true y_pred) with (Ok (y_true, y_pred))
    by (vm_compute; reflexivity).
  cbn [bind].
  change (Binary64.contingency_matrix y_true y_pred None false) with (Ok c).
  cbn [bind]. rewrite Hexp, Hprod. reflexivity.
Qed.
